(** * Cirq: state-vector mutation engine and single/multi-qubit Clifford algebra

    Shallow embedding of
    - [cirq/sim/act_on_state_vector_args.py]: [_BufferedStateVector] and the
      per-operation dispatch of [ActOnStateVectorArgs];
    - the parts of [cirq/ops/clifford_gate.py] and the Clifford tableau that
      [cirq/ops/clifford_gate_test.py] exercises (modelled from the spec).

    Arrays are modelled by identity: a heap maps array ids to contents, and
    the two fields of [_BufferedStateVector] hold ids, so that aliasing of the
    state vector and the buffer is visible.  Floating point numbers are
    modelled by exact rationals [Q]. *)

From Stdlib Require Import QArith Qabs ZArith List Bool String Lia.
From Stdlib Require Import FunctionalExtensionality.
Import ListNotations.

(** Python-level outcome of a call: a value, or a raised exception. *)
Inductive outcome (A : Type) : Type :=
| Ret (a : A)
| Raise (msg : string).
Arguments Ret {A} a.
Arguments Raise {A} msg.

(** [x < y] on floats. *)
Definition Qltb (x y : Q) : bool := negb (Qle_bool y x).

Lemma Qltb_true x y : Qltb x y = true -> x < y.
Proof.
  unfold Qltb; intro H; apply negb_true_iff in H.
  apply Qnot_le_lt; intro H'; apply Qle_bool_iff in H'; congruence.
Qed.

Lemma Qltb_false x y : Qltb x y = false -> y <= x.
Proof. unfold Qltb; intro H; apply negb_false_iff in H; now apply Qle_bool_iff. Qed.

Module ActOnStateVector.

Section Model.

(** Contents of one numpy array (the state vector tensor or the buffer). *)
Variable Vec : Type.
(** A Kraus operator, already reshaped to [shape * 2] and cast to the dtype. *)
Variable Kraus : Type.
(** A unitary of a mixture, already cast and reshaped. *)
Variable Unitary : Type.
(** The simulated action and the pseudo random number generator. *)
Variable Action : Type.
Variable Prng : Type.

(** numpy / protocol collaborators. *)
Variable targeted_left_multiply : Kraus -> Vec -> Vec.
Variable targeted_left_multiply_unitary : Unitary -> Vec -> Vec.
(** [np.linalg.norm(v) ** 2] *)
Variable norm_sq : Vec -> Q.
(** [v / np.sqrt(w)] *)
Variable div_sqrt : Vec -> Q -> Vec.
(** [np.empty_like(v)] *)
Variable empty_like : Vec -> Vec.
(** [protocols.kraus(action, default=None)] *)
Variable kraus : Action -> option (list Kraus).
(** [protocols.mixture(action, default=None)] *)
Variable mixture : Action -> option (list (Q * Unitary)).
(** [protocols.apply_unitary(action, ApplyUnitaryArgs(target, buffer, axes), ...)]:
    given the heap and the ids of target tensor and available buffer, either
    [None] (NotImplemented) or the id of the returned array and the heap after
    the call (the protocol may write into both arrays or allocate). *)
Variable apply_unitary_protocol :
  Action -> (nat -> Vec) -> nat -> nat -> option (nat * (nat -> Vec)).
(** [prng.random()] and [prng.choice(range(n), p=probabilities)] *)
Variable prng_random : Prng -> Q * Prng.
Variable prng_choice : Prng -> list Q -> nat * Prng.
(** [sim.measure_state_vector(v, axes, out=v, seed=prng)]: bits and collapsed state. *)
Variable measure_state_vector : Prng -> Vec -> list nat * Vec * Prng.

(** The arrays of the process, by id. *)
Definition heap := nat -> Vec.

Definition upd (h : heap) (r : nat) (v : Vec) : heap :=
  fun r' => if Nat.eqb r' r then v else h r'.

(** [_BufferedStateVector]: the fields [_state_vector] and [_buffer] hold array ids. *)
Record bsv := mk_bsv {
  mem : heap;
  state_vector : nat;
  buffer : nat;
}.

(** Invariant of the spec: the state vector and the buffer are distinct arrays. *)
Definition no_alias (s : bsv) : Prop := state_vector s <> buffer s.

(** [__init__(state_vector, buffer)] on a freshly created state vector array
    [sv] (as [create] always produces one: it copies an ndarray initial state,
    or builds a new one); a missing buffer is allocated with [np.empty_like]. *)
Definition init (h : heap) (sv : nat) (v : Vec) (buf : option (nat * Vec)) : bsv :=
  match buf with
  | None => mk_bsv (upd (upd h (S sv) (empty_like v)) sv v) sv (S sv)
  | Some (b, bv) => mk_bsv (upd (upd h b bv) sv v) sv b
  end.

(** [_swap_target_tensor_for(new_target_tensor)] *)
Definition swap_target_tensor_for (new_target_tensor : nat) (s : bsv) : bsv :=
  let s1 :=
    if Nat.eqb new_target_tensor (buffer s)
    then mk_bsv (mem s) (state_vector s) (state_vector s)
    else s in
  mk_bsv (mem s1) new_target_tensor (buffer s1).

(** [apply_unitary(action, axes)] *)
Definition apply_unitary (action : Action) (s : bsv) : bool * bsv :=
  match apply_unitary_protocol action (mem s) (state_vector s) (buffer s) with
  | None => (false, s)
  | Some (new_target_tensor, h) =>
      (true, swap_target_tensor_for new_target_tensor
               (mk_bsv h (state_vector s) (buffer s)))
  end.

(** [apply_mixture(action, axes, prng)] *)
Definition apply_mixture (action : Action) (prng : Prng) (s : bsv)
  : outcome (option nat * Prng * bsv) :=
  match mixture action with
  | None => Ret (None, prng, s)
  | Some mix =>
      let probabilities := map fst mix in
      let unitaries := map snd mix in
      let '(index, prng1) := prng_choice prng probabilities in
      match nth_error unitaries index with
      | None => Raise "IndexError"
      | Some unitary =>
          let h := upd (mem s) (buffer s)
                     (targeted_left_multiply_unitary unitary (mem s (state_vector s))) in
          let s1 := mk_bsv h (state_vector s) (buffer s) in
          Ret (Some index, prng1, swap_target_tensor_for (buffer s1) s1)
      end
  end.

(** [prepare_into_buffer(k)] inside [apply_channel] *)
Definition prepare_into_buffer (kraus_tensors : list Kraus) (k : nat) (s : bsv)
  : outcome bsv :=
  match nth_error kraus_tensors k with
  | None => Raise "IndexError"
  | Some e =>
      Ret (mk_bsv (upd (mem s) (buffer s) (targeted_left_multiply e (mem s (state_vector s))))
             (state_vector s) (buffer s))
  end.

(** Local variables of the selection loop of [apply_channel]. *)
Record loop_vars := mk_loop_vars {
  p : Q;
  weight : option Q;
  fallback_weight : Q;
  fallback_weight_index : nat;
  index : option nat;
}.

(** [for index in range(len(kraus_tensors)): ...] with its [break] *)
Fixpoint channel_loop (kraus_tensors : list Kraus) (idxs : list nat)
    (lv : loop_vars) (s : bsv) : outcome (loop_vars * bsv) :=
  match idxs with
  | [] => Ret (lv, s)
  | i :: rest =>
      match prepare_into_buffer kraus_tensors i s with
      | Raise m => Raise m
      | Ret s1 =>
          let w := norm_sq (mem s1 (buffer s1)) in
          let '(fi, fw) :=
            if Qltb (fallback_weight lv) w then (i, w)
            else (fallback_weight_index lv, fallback_weight lv) in
          let p1 := p lv - w in
          let lv1 := mk_loop_vars p1 (Some w) fw fi (Some i) in
          if Qltb p1 0 then Ret (lv1, s1)
          else channel_loop kraus_tensors rest lv1 s1
      end
  end.

(** [apply_channel(action, axes, prng)] *)
Definition apply_channel (action : Action) (prng : Prng) (s : bsv)
  : outcome (option nat * Prng * bsv) :=
  match kraus action with
  | None => Ret (None, prng, s)
  | Some kraus_tensors =>
      let '(p0, prng1) := prng_random prng in
      let lv0 := mk_loop_vars p0 None 0 0 None in
      match channel_loop kraus_tensors (seq 0 (List.length kraus_tensors)) lv0 s with
      | Raise m => Raise m
      | Ret (lv, s1) =>
          match weight lv with
          | None => Raise "AssertionError: No Kraus operators"
          | Some w =>
              let sel :=
                if Qle_bool 0 (p lv) || Qeq_bool w 0 then
                  match prepare_into_buffer kraus_tensors (fallback_weight_index lv) s1 with
                  | Raise m => Raise m
                  | Ret s2 => Ret (s2, fallback_weight lv, Some (fallback_weight_index lv))
                  end
                else Ret (s1, w, index lv) in
              match sel with
              | Raise m => Raise m
              | Ret (s2, w2, idx) =>
                  let s3 := mk_bsv (upd (mem s2) (buffer s2)
                                      (div_sqrt (mem s2 (buffer s2)) w2))
                                   (state_vector s2) (buffer s2) in
                  Ret (idx, prng1, swap_target_tensor_for (buffer s3) s3)
              end
          end
      end
  end.

(** [measure(axes, seed)]: collapses the state vector in place. *)
Definition measure (prng : Prng) (s : bsv) : list nat * Prng * bsv :=
  let '(bits, v, prng1) := measure_state_vector prng (mem s (state_vector s)) in
  (bits, prng1, mk_bsv (upd (mem s) (state_vector s) v) (state_vector s) (buffer s)).


(** ** Construction and copies of [_BufferedStateVector] *)

(** A new array with contents [v], at the first unused id [top]: the heap
    after the allocation, the next unused id and the id of the new array. *)
Definition alloc (h : heap) (top : nat) (v : Vec) : heap * nat * nat :=
  (upd h top v, S top, top).

(** numpy and [qis] collaborators of [create]. *)
Variable Dtype : Type.
Variable StateLike : Type.
(** [x.reshape(shape)]: the contents of the result, and whether the result is
    a view sharing the memory of [x] (otherwise it is a new array); a shape of
    the wrong size raises. *)
Variable reshape : Vec -> list nat -> outcome (bool * Vec).
(** [x.astype(dtype, copy=False)]: [None] when [x] already has [dtype], so
    that [x] itself is returned, else the contents of a new array. *)
Variable astype : Vec -> Dtype -> option Vec.
(** [qis.to_valid_state_vector(state, len(qid_shape), qid_shape=qid_shape,
    dtype=dtype)]: the contents of a new array, or an error. *)
Variable to_valid_state_vector : StateLike -> list nat -> Dtype -> outcome Vec.

(** The [initial_state] argument of [create]: an [np.ndarray], by id, or any
    other state-vector-like value (an int, a list, ...). *)
Inductive initial_state_arg :=
| NdArray (r : nat)
| StateVectorLike (x : StateLike).

(** [_BufferedStateVector.create(initial_state=..., qid_shape=..., dtype=...,
    buffer=...)] on the arrays [h], whose ids in use are below [top]; returns
    the new object and the next unused id. *)
Definition create (h : heap) (top : nat) (initial_state : initial_state_arg)
    (qid_shape : option (list nat)) (dtype : Dtype) (buffer : option nat)
  : outcome (bsv * nat) :=
  let state_vector :=
    match initial_state with
    | StateVectorLike x =>
        match qid_shape with
        | None => Raise "ValueError: qid_shape must be provided if initial_state is not ndarray"
        | Some shape =>
            match to_valid_state_vector x shape dtype with
            | Raise m => Raise m
            | Ret v =>
                let '(h1, top1, r) := alloc h top v in
                match reshape v shape with
                | Raise m => Raise m
                (* a view of the new array [r], which nothing else refers to *)
                | Ret (true, v1) => Ret (upd h1 r v1, top1, r)
                | Ret (false, v1) => Ret (alloc h1 top1 v1)
                end
            end
        end
    | NdArray r0 =>
        let reshaped :=
          match qid_shape with
          | Some shape => reshape (h r0) shape
          | None => Ret (true, h r0)  (* [state_vector = initial_state] *)
          end in
        match reshaped with
        | Raise m => Raise m
        (* [np.may_share_memory(state_vector, initial_state)]: [.copy()] *)
        | Ret (true, v1) => Ret (alloc h top v1)
        (* [reshape] already returned a new array *)
        | Ret (false, v1) => Ret (alloc h top v1)
        end
    end in
  match state_vector with
  | Raise m => Raise m
  | Ret (h2, top2, r2) =>
      (* [state_vector.astype(dtype, copy=False)] *)
      let '(h3, top3, r3) :=
        match astype (h2 r2) dtype with
        | None => (h2, top2, r2)
        | Some v => alloc h2 top2 v
        end in
      (* [cls(state_vector, buffer)] *)
      match buffer with
      | None => Ret (init h3 r3 (h3 r3) None, S top3)
      | Some b => Ret (init h3 r3 (h3 r3) (Some (b, h3 b)), top3)
      end
  end.

(** The qubits of [ActOnStateVectorArgs] and their [q.dimension]. *)
Variable Qid : Type.
Variable dimension : Qid -> nat.

(** [ActOnStateVectorArgs.__init__(target_tensor=..., available_buffer=...,
    qubits=..., initial_state=..., dtype=...)]: the construction of
    [self._state] (the rest is [ActOnArgs.__init__]). *)
Definition args_init_state (h : heap) (top : nat) (target_tensor : option nat)
    (available_buffer : option nat) (qubits : option (list Qid))
    (initial_state : initial_state_arg) (dtype : Dtype) : outcome (bsv * nat) :=
  create h top
    (match target_tensor with Some t => NdArray t | None => initial_state end)
    (option_map (map dimension) qubits) dtype available_buffer.

(** [copy(deep_copy_buffers)]: the copy, whose heap is the heap of the process
    after the call, and the next unused id. *)
Definition copy (deep_copy_buffers : bool) (top : nat) (s : bsv) : bsv * nat :=
  let '(h1, top1, sv) := alloc (mem s) top (mem s (state_vector s)) in
  let '(h2, top2, buf) :=
    if deep_copy_buffers then alloc h1 top1 (mem s (buffer s))
    else (h1, top1, buffer s) in
  (init h2 sv (h2 sv) (Some (buf, h2 buf)), top2).

(** ** Reading of the channel selection

    [weights kraus_tensors v] are the un-normalized probability weights of the
    operators for the state contents [v]. *)
Definition weights (kraus_tensors : list Kraus) (v : Vec) : list Q :=
  map (fun e => norm_sq (targeted_left_multiply e v)) kraus_tensors.

(** The running difference of the spec: the threshold minus each weight in turn. *)
Fixpoint running_differences (p0 : Q) (ws : list Q) : list Q :=
  match ws with
  | [] => []
  | w :: rest => (p0 - w) :: running_differences (p0 - w) rest
  end.

(** Index of the first negative entry. *)
Fixpoint first_negative (l : list Q) : option nat :=
  match l with
  | [] => None
  | x :: rest =>
      if Qltb x 0 then Some 0%nat
      else option_map S (first_negative rest)
  end.

(** [i] is the first index of a largest entry of [ws]. *)
Definition is_first_argmax (ws : list Q) (i : nat) : Prop :=
  exists wi, nth_error ws i = Some wi /\
    (forall j w, nth_error ws j = Some w -> w <= wi) /\
    (forall j w, (j < i)%nat -> nth_error ws j = Some w -> w < wi).

(** The buffer after [prepare_into_buffer] with operator [e]. *)
Definition with_buffer (s : bsv) (e : Kraus) : bsv :=
  mk_bsv (upd (mem s) (buffer s) (targeted_left_multiply e (mem s (state_vector s))))
    (state_vector s) (buffer s).

(** The state after [self._buffer /= np.sqrt(w)] and the swap, when the buffer
    held operator [e] applied to the state vector. *)
Definition renormalized_swap (s : bsv) (e : Kraus) (w : Q) : bsv :=
  mk_bsv (upd (mem s) (buffer s)
            (div_sqrt (targeted_left_multiply e (mem s (state_vector s))) w))
    (buffer s) (state_vector s).

(** The selection loop on the weights alone. *)
Fixpoint channel_scan (ws : list Q) (i : nat) (lv : loop_vars) : loop_vars :=
  match ws with
  | [] => lv
  | w :: rest =>
      let '(fi, fw) :=
        if Qltb (fallback_weight lv) w then (i, w)
        else (fallback_weight_index lv, fallback_weight lv) in
      let p1 := p lv - w in
      let lv1 := mk_loop_vars p1 (Some w) fw fi (Some i) in
      if Qltb p1 0 then lv1 else channel_scan rest (S i) lv1
  end.

(** *** The loop acts on the buffer only *)

Lemma upd_upd (h : heap) r v1 v2 : upd (upd h r v1) r v2 = upd h r v2.
Proof.
  apply functional_extensionality; intro r'; unfold upd.
  destruct (Nat.eqb r' r); reflexivity.
Qed.

Lemma upd_other (h : heap) r v r' : r' <> r -> upd h r v r' = h r'.
Proof. intro H; unfold upd; apply Nat.eqb_neq in H; now rewrite H. Qed.

Lemma upd_same (h : heap) r v : upd h r v r = v.
Proof. unfold upd; now rewrite Nat.eqb_refl. Qed.

Lemma with_buffer_twice (s : bsv) e1 e2 :
  no_alias s -> with_buffer (with_buffer s e1) e2 = with_buffer s e2.
Proof.
  intro H; unfold with_buffer; simpl.
  rewrite upd_upd, upd_other by exact H; reflexivity.
Qed.

Lemma skipn_cons_nth {A} (l : list A) i x :
  nth_error l i = Some x -> skipn i l = x :: skipn (S i) l.
Proof.
  revert l; induction i as [|i IH]; intros [|y l] H; simpl in *; try discriminate.
  - now inversion H.
  - now apply IH.
Qed.

Section Loop.

Variable kraus_tensors : list Kraus.
Variable s0 : bsv.
Hypothesis Hs0 : no_alias s0.

Let ws := weights kraus_tensors (mem s0 (state_vector s0)).

(** Where the buffer stands: untouched before the first iteration, then
    holding the operator of the last visited index. *)
Definition buffer_holds (lv : loop_vars) (s : bsv) : Prop :=
  match index lv with
  | None => s = s0
  | Some j => exists e, nth_error kraus_tensors j = Some e /\ s = with_buffer s0 e
  end.

Lemma prepare_from_holds lv s k e :
  buffer_holds lv s -> nth_error kraus_tensors k = Some e ->
  prepare_into_buffer kraus_tensors k s = Ret (with_buffer s0 e).
Proof.
  unfold buffer_holds, prepare_into_buffer; intros Hh Hk; rewrite Hk.
  destruct (index lv) as [j|].
  - destruct Hh as [e' [_ ->]]. f_equal.
    change (with_buffer (with_buffer s0 e') e = with_buffer s0 e).
    now apply with_buffer_twice.
  - now subst.
Qed.

Lemma channel_loop_scan :
  forall m i lv s, (i + m = List.length kraus_tensors)%nat -> buffer_holds lv s ->
  exists s', channel_loop kraus_tensors (seq i m) lv s
             = Ret (channel_scan (skipn i ws) i lv, s')
          /\ buffer_holds (channel_scan (skipn i ws) i lv) s'.
Proof.
  induction m as [|m IH]; intros i lv s Hlen Hh.
  - exists s. rewrite Nat.add_0_r in Hlen; subst i.
    unfold ws, weights; rewrite skipn_all2 by (rewrite length_map; lia).
    split; [reflexivity | exact Hh].
  - destruct (nth_error kraus_tensors i) as [e|] eqn:He.
    2:{ apply nth_error_None in He; lia. }
    assert (Hw : nth_error ws i
                 = Some (norm_sq (targeted_left_multiply e (mem s0 (state_vector s0))))).
    { unfold ws, weights; now rewrite nth_error_map, He. }
    rewrite (skipn_cons_nth _ _ _ Hw).
    simpl seq; cbn [channel_loop channel_scan].
    rewrite (prepare_from_holds lv s i e Hh He).
    cbn [mem buffer state_vector with_buffer].
    rewrite upd_same.
    set (w := norm_sq (targeted_left_multiply e (mem s0 (state_vector s0)))).
    set (fb := if Qltb (fallback_weight lv) w then (i, w)
               else (fallback_weight_index lv, fallback_weight lv)).
    destruct fb as [fi fw].
    destruct (Qltb (p lv - w) 0).
    + eexists; split; [reflexivity|]. exists e; split; [exact He | reflexivity].
    + apply IH; [lia|]. exists e; split; [exact He | reflexivity].
Qed.

End Loop.

(** *** The selection loop on the weights *)

(** What the loop variables record after the weights [obs] were visited. *)
Definition channel_inv (obs : list Q) (lv : loop_vars) : Prop :=
  (obs = [] /\ fallback_weight lv = 0 /\ fallback_weight_index lv = 0%nat /\
   index lv = None /\ weight lv = None) \/
  (exists w wi,
     index lv = Some (Nat.pred (List.length obs)) /\ weight lv = Some w /\
     nth_error obs (Nat.pred (List.length obs)) = Some w /\
     nth_error obs (fallback_weight_index lv) = Some wi /\
     fallback_weight lv == wi /\ is_first_argmax obs (fallback_weight_index lv)).

Lemma nth_error_app_last {A} (l : list A) x : nth_error (l ++ [x]) (List.length l) = Some x.
Proof. rewrite nth_error_app2 by lia; now rewrite Nat.sub_diag. Qed.

Lemma channel_inv_step obs lv w :
  0 <= w -> channel_inv obs lv ->
  let '(fi, fw) :=
    if Qltb (fallback_weight lv) w then (List.length obs, w)
    else (fallback_weight_index lv, fallback_weight lv) in
  forall p1, channel_inv (obs ++ [w]) (mk_loop_vars p1 (Some w) fw fi (Some (List.length obs))).
Proof.
  intros Hw Hinv.
  assert (Hlast : Nat.pred (List.length (obs ++ [w])) = List.length obs)
    by (rewrite length_app; simpl; lia).
  destruct (Qltb (fallback_weight lv) w) eqn:Hlt; intro p1; right; simpl; rewrite Hlast.
  - apply Qltb_true in Hlt.
    exists w, w; repeat split; try apply nth_error_app_last; try apply Qeq_refl.
    exists w; split; [apply nth_error_app_last|split].
    + intros j w' Hj.
      destruct (Nat.lt_ge_cases j (List.length obs)) as [Hj'|Hj'].
      * rewrite nth_error_app1 in Hj by exact Hj'.
        destruct Hinv as [[-> _]|[w0 [wi [_ [_ [_ [Hwi [Hfw [wi' [Hwi' [Hmax _]]]]]]]]]]].
        { simpl in Hj'; lia. }
        rewrite Hwi in Hwi'; injection Hwi' as <-.
        apply Qlt_le_weak, Qle_lt_trans with wi; [now apply (Hmax j)|].
        now rewrite <- Hfw.
      * rewrite nth_error_app2 in Hj by exact Hj'.
        destruct (j - List.length obs)%nat as [|k]; simpl in Hj.
        -- injection Hj as <-; apply Qle_refl.
        -- destruct k; discriminate.
    + intros j w' Hj Hj'.
      rewrite nth_error_app1 in Hj' by exact Hj.
      destruct Hinv as [[-> _]|[w0 [wi [_ [_ [_ [Hwi [Hfw [wi' [Hwi' [Hmax _]]]]]]]]]]].
      { simpl in Hj; lia. }
      rewrite Hwi in Hwi'; injection Hwi' as <-.
      apply Qle_lt_trans with wi; [now apply (Hmax j)|].
      now rewrite <- Hfw.
  - apply Qltb_false in Hlt.
    destruct Hinv as [[-> [Hfw [Hfi _]]]|[w0 [wi [_ [_ [_ [Hwi [Hfw [wi' [Hwi' [Hmax Hstrict]]]]]]]]]]].
    + (* first visited weight, not above the initial fallback weight 0 *)
      rewrite Hfi; simpl.
      assert (Hw0 : w == 0) by (rewrite Hfw in Hlt; now apply Qle_antisym).
      exists w, w; repeat split; try reflexivity.
      * rewrite Hfw, Hw0; apply Qeq_refl.
      * exists w; split; [reflexivity|split].
        -- intros [|[|j]] w' Hj; simpl in Hj; try discriminate.
           injection Hj as <-; apply Qle_refl.
        -- intros j w' Hj; lia.
    + assert (Hfi : (fallback_weight_index lv < List.length obs)%nat)
        by (apply nth_error_Some; congruence).
      exists w, wi; repeat split; try apply nth_error_app_last.
      * now rewrite nth_error_app1.
      * exact Hfw.
      * rewrite Hwi in Hwi'; injection Hwi' as <-.
        exists wi; split; [now rewrite nth_error_app1|split].
        -- intros j w' Hj.
           destruct (Nat.lt_ge_cases j (List.length obs)) as [Hj'|Hj'].
           ++ rewrite nth_error_app1 in Hj by exact Hj'; now apply (Hmax j).
           ++ rewrite nth_error_app2 in Hj by exact Hj'.
              destruct (j - List.length obs)%nat as [|k]; simpl in Hj.
              ** injection Hj as <-. now rewrite <- Hfw.
              ** destruct k; discriminate.
        -- intros j w' Hj Hj'.
           rewrite nth_error_app1 in Hj' by lia; now apply (Hstrict j).
Qed.

(** How many weights the loop visits from threshold [p0]. *)
Definition visited (p0 : Q) (ws : list Q) : nat :=
  match first_negative (running_differences p0 ws) with
  | Some k => S k
  | None => List.length ws
  end.

Lemma channel_scan_inv ws :
  forall obs lv, Forall (fun w => 0 <= w) ws -> channel_inv obs lv ->
  channel_inv (obs ++ firstn (visited (p lv) ws) ws) (channel_scan ws (List.length obs) lv).
Proof.
  induction ws as [|w rest IH]; intros obs lv Hnn Hinv.
  - unfold visited; simpl; now rewrite app_nil_r.
  - inversion Hnn as [|? ? Hw Hrest]; subst.
    pose proof (channel_inv_step obs lv w Hw Hinv) as Hstep.
    assert (Hvis : visited (p lv) (w :: rest)
                   = if Qltb (p lv - w) 0 then 1%nat else S (visited (p lv - w) rest)).
    { unfold visited; simpl. destruct (Qltb (p lv - w) 0); [reflexivity|].
      destruct (first_negative (running_differences (p lv - w) rest)); reflexivity. }
    rewrite Hvis; cbn [channel_scan].
    destruct (Qltb (fallback_weight lv) w) eqn:Hlt;
    destruct (Qltb (p lv - w) 0) eqn:Hp; simpl firstn; try apply Hstep;
    (replace (obs ++ w :: firstn (visited (p lv - w) rest) rest)
       with ((obs ++ [w]) ++ firstn (visited (p lv - w) rest) rest)
       by (rewrite <- app_assoc; reflexivity));
    (replace (S (List.length obs)) with (List.length (obs ++ [w]))
       by (rewrite length_app; simpl; lia));
    apply (IH _ _ Hrest (Hstep _)).
Qed.

(** At the first negative running difference the loop breaks with a negative
    threshold, on that index and its weight. *)
Lemma channel_scan_crossing ws :
  forall i lv k, first_negative (running_differences (p lv) ws) = Some k ->
  exists w, nth_error ws k = Some w /\
    index (channel_scan ws i lv) = Some (i + k)%nat /\
    weight (channel_scan ws i lv) = Some w /\
    p (channel_scan ws i lv) < 0.
Proof.
  induction ws as [|w rest IH]; intros i lv k Hk; [discriminate|].
  simpl in Hk; cbn [channel_scan].
  destruct (Qltb (fallback_weight lv) w); destruct (Qltb (p lv - w) 0) eqn:Hp.
  1,3: injection Hk as <-; exists w; rewrite Nat.add_0_r;
       repeat split; try reflexivity; now apply Qltb_true.
  all: destruct (first_negative (running_differences (p lv - w) rest)) as [k'|] eqn:Hk';
       simpl in Hk; [injection Hk as <- | discriminate];
       match goal with
       | |- context [channel_scan _ (S _) ?l] =>
           destruct (IH (S i) l k' Hk') as [w' [H1 [H2 [H3 H4]]]]
       end;
       exists w'; rewrite Nat.add_succ_r; repeat split; assumption.
Qed.

(** Without a negative running difference the loop ends with a non-negative threshold. *)
Lemma channel_scan_no_crossing ws :
  forall i lv, ws <> [] -> first_negative (running_differences (p lv) ws) = None ->
  0 <= p (channel_scan ws i lv).
Proof.
  induction ws as [|w rest IH]; intros i lv Hne Hk; [congruence|].
  simpl in Hk; cbn [channel_scan].
  destruct (Qltb (p lv - w) 0) eqn:Hp; [discriminate|].
  apply Qltb_false in Hp.
  destruct (Qltb (fallback_weight lv) w);
  (destruct rest as [|w' rest']; [exact Hp|]);
  apply IH; try discriminate; cbn [p];
  destruct (first_negative (running_differences (p lv - w) (w' :: rest')));
  simpl in Hk; congruence.
Qed.

(** From a non-negative threshold, the first negative running difference is
    reached on a positive weight. *)
Lemma first_negative_positive_weight ws :
  forall p0 k, 0 <= p0 -> first_negative (running_differences p0 ws) = Some k ->
  exists w, nth_error ws k = Some w /\ 0 < w.
Proof.
  induction ws as [|w rest IH]; intros p0 k Hp0 Hk; [discriminate|].
  simpl in Hk; destruct (Qltb (p0 - w) 0) eqn:Hp.
  - injection Hk as <-; exists w; split; [reflexivity|].
    apply Qltb_true in Hp. apply Qnot_le_lt; intro Hw.
    apply (Qlt_not_le _ _ Hp). apply Qle_minus_iff. ring_simplify.
    apply Qle_trans with p0; [exact Hp0|].
    rewrite <- (Qplus_0_r p0) at 1. apply Qplus_le_r.
    now apply Qopp_le_compat in Hw; ring_simplify in Hw.
  - apply Qltb_false in Hp.
    destruct (first_negative (running_differences (p0 - w) rest)) as [k'|] eqn:Hk';
      simpl in Hk; [injection Hk as <- | discriminate].
    exact (IH _ _ Hp Hk').
Qed.


(** *** From the loop to [apply_channel] *)

Lemma weights_nth kts v k w :
  nth_error (weights kts v) k = Some w ->
  exists e, nth_error kts k = Some e /\ w = norm_sq (targeted_left_multiply e v).
Proof.
  unfold weights; rewrite nth_error_map.
  destruct (nth_error kts k) as [e|]; simpl; intro H; [|discriminate].
  injection H as <-; now exists e.
Qed.

Lemma renormalize_with_buffer s e w :
  let s2 := with_buffer s e in
  swap_target_tensor_for (buffer s2)
    (mk_bsv (upd (mem s2) (buffer s2) (div_sqrt (mem s2 (buffer s2)) w))
       (state_vector s2) (buffer s2))
  = renormalized_swap s e w.
Proof.
  unfold with_buffer, renormalized_swap, swap_target_tensor_for; simpl.
  now rewrite upd_same, upd_upd, Nat.eqb_refl.
Qed.

Lemma channel_loop_from_start kts s lv0 :
  no_alias s -> index lv0 = None ->
  exists s1,
    channel_loop kts (seq 0 (List.length kts)) lv0 s
      = Ret (channel_scan (weights kts (mem s (state_vector s))) 0 lv0, s1) /\
    buffer_holds kts s (channel_scan (weights kts (mem s (state_vector s))) 0 lv0) s1.
Proof.
  intros Hs Hi.
  destruct (channel_loop_scan kts s Hs (List.length kts) 0 lv0 s) as [s1 [H1 H2]];
    [reflexivity | unfold buffer_holds; now rewrite Hi |].
  exists s1; exact (conj H1 H2).
Qed.

Lemma channel_scan_nonempty ws :
  forall i lv, ws <> [] ->
  (exists j, index (channel_scan ws i lv) = Some j) /\
  (exists w, weight (channel_scan ws i lv) = Some w) /\
  (fallback_weight_index (channel_scan ws i lv) = fallback_weight_index lv \/
   (i <= fallback_weight_index (channel_scan ws i lv) < i + List.length ws)%nat).
Proof.
  induction ws as [|w rest IH]; intros i lv Hne; [congruence|].
  cbn [channel_scan].
  destruct (Qltb (fallback_weight lv) w) eqn:Hlt;
  destruct (Qltb (p lv - w) 0);
  try (split; [eexists; reflexivity|split; [eexists; reflexivity|simpl; lia]]).
  all: destruct rest as [|w' rest'];
       [split; [eexists; reflexivity|split; [eexists; reflexivity|simpl; lia]]|].
  all: match goal with
       | |- context [channel_scan _ (S _) ?l] =>
           destruct (IH (S i) l ltac:(discriminate)) as [H1 [H2 H3]]
       end; split; [exact H1|split; [exact H2|]]; simpl in H3 |- *; lia.
Qed.

(** The [else] branch of the final selection when the loop broke with a
    negative threshold on a non-zero weight. *)
Lemma Qle_bool_neg x : x < 0 -> Qle_bool 0 x = false.
Proof.
  intro H; destruct (Qle_bool 0 x) eqn:E; [|reflexivity].
  apply Qle_bool_iff in E; exfalso; now apply (Qlt_not_le _ _ H).
Qed.

Lemma Qeq_bool_pos x : 0 < x -> Qeq_bool x 0 = false.
Proof.
  intro H; destruct (Qeq_bool x 0) eqn:E; [|reflexivity].
  apply Qeq_bool_iff in E; rewrite E in H; discriminate.
Qed.

(** ** Claims on [apply_channel] *)

(** C1: for an action with a (necessarily non-empty) Kraus list, [apply_channel]
    draws one threshold, subtracts the squared norms of the post-application
    buffers in order and returns the index of the first operator at which the
    running difference becomes negative; the buffer holding that operator's
    image, renormalized, becomes the state vector. *)
Theorem apply_channel_first_crossing action prng s kraus_tensors
  (Hk : kraus action = Some kraus_tensors) (Hs : no_alias s)
  (Hp0 : 0 <= fst (prng_random prng)) (k : nat)
  (Hc : first_negative (running_differences (fst (prng_random prng))
          (weights kraus_tensors (mem s (state_vector s)))) = Some k) :
  exists e, nth_error kraus_tensors k = Some e /\
    apply_channel action prng s
    = Ret (Some k, snd (prng_random prng),
           renormalized_swap s e (norm_sq (targeted_left_multiply e (mem s (state_vector s))))).
Proof.
  unfold apply_channel; rewrite Hk.
  destruct (prng_random prng) as [p0 prng1]; simpl in Hp0, Hc |- *.
  set (ws := weights kraus_tensors (mem s (state_vector s))) in *.
  set (lv0 := mk_loop_vars p0 None 0 0 None).
  destruct (channel_loop_from_start kraus_tensors s lv0 Hs eq_refl) as [s1 [Hl Hh]].
  rewrite Hl; fold ws in Hh |- *.
  destruct (channel_scan_crossing ws 0 lv0 k Hc) as [w [Hw [Hi [Hwt Hneg]]]].
  simpl in Hi.
  destruct (first_negative_positive_weight ws p0 k Hp0 Hc) as [w' [Hw' Hpos]].
  rewrite Hw in Hw'; injection Hw' as <-.
  rewrite Hwt, (Qle_bool_neg _ Hneg), (Qeq_bool_pos _ Hpos), Hi; simpl.
  unfold buffer_holds in Hh; rewrite Hi in Hh; destruct Hh as [e [He ->]].
  exists e; split; [exact He|].
  destruct (weights_nth _ _ _ _ Hw) as [e' [He' ->]].
  rewrite He in He'; injection He' as <-.
  do 2 f_equal; exact (renormalize_with_buffer _ _ _).
Qed.

(** C2: when the running difference never becomes negative, or the selected
    weight is zero, [apply_channel] returns (without raising) the first index
    of a largest weight among the visited operators; in every successful call
    the buffer holding the selected operator's image is divided by the square
    root of that operator's weight and swapped in as the state vector. *)
Theorem apply_channel_fallback_and_renormalize action prng s kraus_tensors
  (Hnn : forall v, 0 <= norm_sq v)
  (Hk : kraus action = Some kraus_tensors) (Hne : kraus_tensors <> [])
  (Hs : no_alias s) :
  let p0 := fst (prng_random prng) in
  let ws := weights kraus_tensors (mem s (state_vector s)) in
  ((first_negative (running_differences p0 ws) = None \/
    exists k w, first_negative (running_differences p0 ws) = Some k /\
                nth_error ws k = Some w /\ w == 0) ->
   exists i s', apply_channel action prng s = Ret (Some i, snd (prng_random prng), s') /\
                is_first_argmax (firstn (visited p0 ws) ws) i)
  /\
  (forall i prng' s', apply_channel action prng s = Ret (Some i, prng', s') ->
   exists e w, nth_error kraus_tensors i = Some e /\
     w == norm_sq (targeted_left_multiply e (mem s (state_vector s))) /\
     s' = renormalized_swap s e w).
Proof.
  intros p0 ws.
  assert (Hws_ne : ws <> []) by (unfold ws, weights; destruct kraus_tensors; simpl; congruence).
  assert (Hwsnn : Forall (fun w => 0 <= w) ws)
    by (unfold ws, weights; apply Forall_map, Forall_forall; intros; apply Hnn).
  set (lv0 := mk_loop_vars p0 None 0 0 None).
  destruct (channel_loop_from_start kraus_tensors s lv0 Hs eq_refl) as [s1 [Hl Hh]].
  fold ws in Hl, Hh.
  set (lv := channel_scan ws 0 lv0) in *.
  assert (Hinv : channel_inv (firstn (visited p0 ws) ws) lv).
  { apply (channel_scan_inv ws [] lv0 Hwsnn). left; repeat split. }
  assert (Hobs_ne : firstn (visited p0 ws) ws <> []).
  { unfold visited. destruct ws as [|w0 ws']; [congruence|].
    destruct (first_negative (running_differences p0 (w0 :: ws'))); simpl; discriminate. }
  destruct Hinv as [[Habs _]|[w [wi [Hidx [Hwt [Hlast [Hfi [Hfw Harg]]]]]]]];
    [contradiction|].
  (* the fallback path, as a lemma on the loop result *)
  assert (Hfb :
     exists e, nth_error kraus_tensors (fallback_weight_index lv) = Some e /\
       wi == norm_sq (targeted_left_multiply e (mem s (state_vector s))) /\
       (match prepare_into_buffer kraus_tensors (fallback_weight_index lv) s1 with
        | Raise m => Raise m
        | Ret s2 => Ret (s2, fallback_weight lv, Some (fallback_weight_index lv))
        end) = Ret (with_buffer s e, fallback_weight lv, Some (fallback_weight_index lv))).
  { rewrite nth_error_firstn in Hfi; destruct (_ <? _)%nat; [|discriminate].
    destruct (weights_nth _ _ _ _ Hfi) as [e [He Hwe]].
    exists e; repeat split; [exact He| rewrite Hwe; apply Qeq_refl|].
    now rewrite (prepare_from_holds kraus_tensors s Hs lv s1 _ e Hh He). }
  unfold apply_channel; rewrite Hk.
  fold p0; destruct (prng_random prng) as [p0' prng1] eqn:Hr; simpl in p0; subst p0.
  fold lv0; rewrite Hl; fold lv; rewrite Hwt.
  destruct Hfb as [e [He [Hwe Hprep]]].
  split.
  - intro Hcase.
    assert (Hsel : (Qle_bool 0 (p lv) || Qeq_bool w 0) = true).
    { destruct Hcase as [Hnone | [k [w0 [Hk0 [Hw0 Hz]]]]].
      - apply orb_true_intro; left; apply Qle_bool_iff.
        now apply channel_scan_no_crossing.
      - apply orb_true_intro; right; apply Qeq_bool_iff.
        destruct (channel_scan_crossing ws 0 lv0 k Hk0) as [w1 [Hw1 [_ [Hwt1 _]]]].
        fold lv in Hwt1; rewrite Hwt in Hwt1; injection Hwt1 as ->.
        rewrite Hw0 in Hw1; injection Hw1 as <-; exact Hz. }
    rewrite Hsel, Hprep.
    eexists; eexists; split; [reflexivity | exact Harg].
  - intros i prng' s' Hres.
    destruct (Qle_bool 0 (p lv) || Qeq_bool w 0).
    + rewrite Hprep in Hres; injection Hres as <- <- <-.
      exists e, (fallback_weight lv); repeat split; [exact He| rewrite Hfw; exact Hwe|].
      exact (renormalize_with_buffer _ _ _).
    + unfold buffer_holds in Hh; rewrite Hidx in Hh; destruct Hh as [e1 [He1 ->]].
      rewrite Hidx in Hres; simpl in Hres; injection Hres as <- <- <-.
      rewrite nth_error_firstn in Hlast; destruct (_ <? _)%nat; [|discriminate].
      destruct (weights_nth _ _ _ _ Hlast) as [e2 [He2 ->]].
      rewrite He1 in He2; injection He2 as <-.
      exists e1, (norm_sq (targeted_left_multiply e1 (mem s (state_vector s)))).
      refine (conj He1 (conj (Qeq_refl _) _)).
      exact (renormalize_with_buffer _ _ _).
Qed.

(** C9: [apply_channel] returns the [None] sentinel when the action exposes no
    Kraus decomposition, fails the assertion "No Kraus operators" on an empty
    one, and otherwise returns an index. *)
Theorem apply_channel_empty_kraus_asserts action prng s (Hs : no_alias s) :
  (kraus action = None -> apply_channel action prng s = Ret (None, prng, s)) /\
  (kraus action = Some [] ->
     apply_channel action prng s = Raise "AssertionError: No Kraus operators") /\
  (forall kraus_tensors, kraus action = Some kraus_tensors -> kraus_tensors <> [] ->
     exists i prng' s', apply_channel action prng s = Ret (Some i, prng', s')).
Proof.
  unfold apply_channel; repeat split.
  - intro H; now rewrite H.
  - intro H; rewrite H; now destruct (prng_random prng).
  - intros kts H Hne; rewrite H.
    destruct (prng_random prng) as [p0 prng1].
    set (lv0 := mk_loop_vars p0 None 0 0 None).
    destruct (channel_loop_from_start kts s lv0 Hs eq_refl) as [s1 [Hl Hh]].
    rewrite Hl.
    assert (Hws : weights kts (mem s (state_vector s)) <> [])
      by (unfold weights; destruct kts; simpl; congruence).
    destruct (channel_scan_nonempty _ 0 lv0 Hws) as [[j Hj] [[w Hw] Hfi]].
    rewrite Hw.
    destruct (nth_error kts (fallback_weight_index
                (channel_scan (weights kts (mem s (state_vector s))) 0 lv0))) as [e|] eqn:He.
    + unfold buffer_holds in Hh.
      destruct (Qle_bool 0 _ || Qeq_bool w 0).
      * rewrite (prepare_from_holds kts s Hs _ s1 _ e Hh He). eauto.
      * rewrite Hj; eauto.
    + exfalso; apply nth_error_None in He.
      assert (List.length kts <> 0%nat) by (destruct kts; simpl; congruence).
      assert (Hlw : List.length (weights kts (mem s (state_vector s))) = List.length kts)
        by (unfold weights; apply length_map).
      rewrite Hlw in Hfi; simpl in Hfi; lia.
Qed.

(** ** Ownership of the two arrays *)

Lemma swap_keeps_apart r s : no_alias s -> no_alias (swap_target_tensor_for r s).
Proof.
  unfold no_alias, swap_target_tensor_for; intro H.
  destruct (Nat.eqb r (buffer s)) eqn:E; simpl.
  - apply Nat.eqb_eq in E; subst; congruence.
  - now apply Nat.eqb_neq in E.
Qed.

Lemma prepare_ids kts k s s' :
  prepare_into_buffer kts k s = Ret s' ->
  state_vector s' = state_vector s /\ buffer s' = buffer s.
Proof.
  unfold prepare_into_buffer; destruct (nth_error kts k); intro H; [|discriminate].
  now injection H as <-.
Qed.

Lemma channel_loop_ids kts idxs :
  forall lv s lv' s', channel_loop kts idxs lv s = Ret (lv', s') ->
  state_vector s' = state_vector s /\ buffer s' = buffer s.
Proof.
  induction idxs as [|i rest IH]; intros lv s lv' s' H; simpl in H.
  - now injection H as _ <-.
  - destruct (prepare_into_buffer kts i s) as [s1|m] eqn:Hp; [|discriminate].
    destruct (prepare_ids _ _ _ _ Hp) as [E1 E2].
    destruct (if Qltb (fallback_weight lv) _ then _ else _) as [fi fw].
    destruct (Qltb _ 0).
    + injection H as _ <-; now split.
    + destruct (IH _ _ _ _ H) as [E3 E4]; split; congruence.
Qed.

Lemma apply_channel_ids action prng s r prng' s' :
  apply_channel action prng s = Ret (r, prng', s') ->
  s' = s \/ (state_vector s' = buffer s /\ buffer s' = state_vector s).
Proof.
  unfold apply_channel.
  destruct (kraus action) as [kts|]; [|intro H; injection H as _ _ <-; now left].
  destruct (prng_random prng) as [p0 prng1].
  destruct (channel_loop _ _ _ s) as [[lv s1]|m] eqn:Hl; [|discriminate].
  destruct (channel_loop_ids _ _ _ _ _ _ Hl) as [E1 E2].
  destruct (weight lv) as [w|]; [|discriminate].
  intro H; right.
  destruct (Qle_bool 0 (p lv) || Qeq_bool w 0).
  - destruct (prepare_into_buffer kts (fallback_weight_index lv) s1) as [s2|m] eqn:Hp;
      [|discriminate].
    destruct (prepare_ids _ _ _ _ Hp) as [E3 E4].
    injection H as _ _ <-; unfold swap_target_tensor_for; simpl.
    rewrite Nat.eqb_refl; simpl; split; congruence.
  - injection H as _ _ <-; unfold swap_target_tensor_for; simpl.
    rewrite Nat.eqb_refl; simpl; split; congruence.
Qed.

(** C8: every completed operation of [_BufferedStateVector] leaves its state
    vector and its buffer as two distinct arrays (construction establishes
    this), and handing the buffer to [_swap_target_tensor_for] exchanges the
    roles of the two arrays without touching any array contents. *)
Theorem buffered_ops_keep_state_and_buffer_apart s (Hs : no_alias s) :
  (forall h sv v, no_alias (init h sv v None)) /\
  (forall h sv v b bv, b <> sv -> no_alias (init h sv v (Some (b, bv)))) /\
  (forall action ok s', apply_unitary action s = (ok, s') -> no_alias s') /\
  (forall action prng r prng' s',
     apply_mixture action prng s = Ret (r, prng', s') -> no_alias s') /\
  (forall action prng r prng' s',
     apply_channel action prng s = Ret (r, prng', s') -> no_alias s') /\
  (forall prng bits prng' s', measure prng s = (bits, prng', s') -> no_alias s') /\
  swap_target_tensor_for (buffer s) s = mk_bsv (mem s) (buffer s) (state_vector s).
Proof.
  repeat split.
  - unfold no_alias; simpl; lia.
  - intros h sv v b bv Hb; unfold no_alias; simpl; congruence.
  - intros action ok s'; unfold apply_unitary.
    destruct (apply_unitary_protocol _ _ _ _) as [[r h]|]; intro H; injection H as _ <-.
    + apply swap_keeps_apart; exact Hs.
    + exact Hs.
  - intros action prng r prng' s'; unfold apply_mixture.
    destruct (mixture action) as [mix|]; [|intro H; injection H as _ _ <-; exact Hs].
    destruct (prng_choice _ _) as [i prng1].
    destruct (nth_error _ i); intro H; [|discriminate].
    injection H as _ _ <-; apply swap_keeps_apart; exact Hs.
  - intros action prng r prng' s' H.
    destruct (apply_channel_ids _ _ _ _ _ _ H) as [-> | [E1 E2]]; [exact Hs|].
    unfold no_alias in *; congruence.
  - intros prng bits prng' s'; unfold measure.
    destruct (measure_state_vector _ _) as [[b v] prng1]; intro H.
    injection H as _ _ <-; exact Hs.
  - unfold swap_target_tensor_for; now rewrite Nat.eqb_refl.
Qed.

(** ** [ActOnStateVectorArgs] and its dispatch chain *)

(** The classical data store and its [record_channel_measurement]. *)
Variable ClassicalData : Type.
Variable record_channel_measurement : ClassicalData -> string -> nat -> ClassicalData.
(** [protocols.is_measurement], [protocols.measurement_key_name], [repr]. *)
Variable is_measurement : Action -> bool.
Variable measurement_key_name : Action -> string.
Variable action_repr : Action -> string.

(** The fields of [ActOnStateVectorArgs] the strategies touch. *)
Record args := mk_args {
  state : bsv;
  prng_of : Prng;
  classical_data : ClassicalData;
}.

(** A strategy returns [True], [False] or [NotImplemented]. *)
Inductive strat_result := StratTrue | StratFalse | StratNotImplemented.

(** [strat_act_on_from_apply_decompose] (in [act_on_args.py]): decomposes the
    action and acts with each piece. *)
Variable strat_act_on_from_apply_decompose : Action -> args -> outcome (strat_result * args).

(** [_strat_act_on_state_vector_from_apply_unitary] *)
Definition strat_act_on_state_vector_from_apply_unitary (action : Action) (a : args)
  : outcome (strat_result * args) :=
  let '(ok, s1) := apply_unitary action (state a) in
  Ret (if ok then StratTrue else StratNotImplemented,
       mk_args s1 (prng_of a) (classical_data a)).

(** The common tail of the mixture and channel strategies. *)
Definition record_if_measurement (action : Action) (index : nat) (cd : ClassicalData)
  : ClassicalData :=
  if is_measurement action
  then record_channel_measurement cd (measurement_key_name action) index
  else cd.

(** [_strat_act_on_state_vector_from_mixture] *)
Definition strat_act_on_state_vector_from_mixture (action : Action) (a : args)
  : outcome (strat_result * args) :=
  match apply_mixture action (prng_of a) (state a) with
  | Raise m => Raise m
  | Ret (None, prng1, s1) => Ret (StratNotImplemented, mk_args s1 prng1 (classical_data a))
  | Ret (Some index, prng1, s1) =>
      Ret (StratTrue, mk_args s1 prng1 (record_if_measurement action index (classical_data a)))
  end.

(** [_strat_act_on_state_vector_from_channel] *)
Definition strat_act_on_state_vector_from_channel (action : Action) (a : args)
  : outcome (strat_result * args) :=
  match apply_channel action (prng_of a) (state a) with
  | Raise m => Raise m
  | Ret (None, prng1, s1) => Ret (StratNotImplemented, mk_args s1 prng1 (classical_data a))
  | Ret (Some index, prng1, s1) =>
      Ret (StratTrue, mk_args s1 prng1 (record_if_measurement action index (classical_data a)))
  end.

Definition type_error_capabilities : string :=
  "Can't simulate operations that don't implement SupportsUnitary, SupportsConsistentApplyUnitary, SupportsMixture or is a measurement".

Definition type_error_message (action : Action) : string :=
  "TypeError: " ++ type_error_capabilities ++ ": " ++ action_repr action.

(** [for strat in strats: ...] of [_act_on_fallback_] *)
Fixpoint try_strategies (action : Action)
    (strats : list (Action -> args -> outcome (strat_result * args))) (a : args)
  : outcome (bool * args) :=
  match strats with
  | [] => Raise (type_error_message action)
  | strat :: rest =>
      match strat action a with
      | Raise m => Raise m
      | Ret (StratFalse, _) => Raise (type_error_message action)
      | Ret (StratTrue, a1) => Ret (true, a1)
      | Ret (StratNotImplemented, a1) => try_strategies action rest a1
      end
  end.

(** [ActOnStateVectorArgs._act_on_fallback_(action, qubits, allow_decompose)] *)
Definition act_on_fallback (action : Action) (a : args) (allow_decompose : bool)
  : outcome (bool * args) :=
  let strats :=
    [strat_act_on_state_vector_from_apply_unitary;
     strat_act_on_state_vector_from_mixture;
     strat_act_on_state_vector_from_channel]
    ++ (if allow_decompose then [strat_act_on_from_apply_decompose] else []) in
  try_strategies action strats a.

(** Whether [needle] occurs in [haystack]. *)
Definition mentions (needle haystack : string) : bool :=
  match String.index 0 needle haystack with Some _ => true | None => false end.

(** ** Claims on the dispatch chain *)

(** The chain returns at the first strategy that reports [True], after
    threading the arguments through the [NotImplemented] ones before it. *)
Lemma try_strategies_not_implemented action strat rest a a1 :
  strat action a = Ret (StratNotImplemented, a1) ->
  try_strategies action (strat :: rest) a = try_strategies action rest a1.
Proof. intro H; simpl; now rewrite H. Qed.

Lemma try_strategies_true action strat rest a a1 :
  strat action a = Ret (StratTrue, a1) ->
  try_strategies action (strat :: rest) a = Ret (true, a1).
Proof. intro H; simpl; now rewrite H. Qed.

(** C3: when the unitary, mixture and channel strategies (and, if permitted,
    the decomposition) all return [NotImplemented], [_act_on_fallback_] raises
    a [TypeError] whose list of capabilities names unitaries, consistent
    [apply_unitary], mixtures and measurements, but not channels (Kraus
    operators), although the channel strategy is in the chain. *)
Theorem act_on_fallback_type_error_omits_channel action a allow_decompose a1 a2 a3
  (Hu : strat_act_on_state_vector_from_apply_unitary action a = Ret (StratNotImplemented, a1))
  (Hm : strat_act_on_state_vector_from_mixture action a1 = Ret (StratNotImplemented, a2))
  (Hc : strat_act_on_state_vector_from_channel action a2 = Ret (StratNotImplemented, a3))
  (Hd : allow_decompose = false \/
        exists a4, strat_act_on_from_apply_decompose action a3 = Ret (StratNotImplemented, a4)) :
  act_on_fallback action a allow_decompose = Raise (type_error_message action) /\
  mentions "SupportsMixture" type_error_capabilities = true /\
  mentions "channel" type_error_capabilities = false /\
  mentions "Channel" type_error_capabilities = false /\
  mentions "Kraus" type_error_capabilities = false.
Proof.
  split; [|vm_compute; repeat split].
  unfold act_on_fallback; simpl app.
  rewrite (try_strategies_not_implemented _ _ _ _ _ Hu),
          (try_strategies_not_implemented _ _ _ _ _ Hm),
          (try_strategies_not_implemented _ _ _ _ _ Hc).
  destruct Hd as [-> | [a4 Hd]]; [reflexivity|].
  destruct allow_decompose; [|reflexivity].
  now rewrite (try_strategies_not_implemented _ _ _ _ _ Hd).
Qed.

(** C10: the unitary strategy never touches the classical data; the mixture
    and channel strategies, when they succeed, record the selected index under
    the action's measurement key exactly when the action is a measurement, and
    record nothing when they return [NotImplemented]. *)
Theorem strategies_record_selected_index :
  (forall action a r a1,
     strat_act_on_state_vector_from_apply_unitary action a = Ret (r, a1) ->
     classical_data a1 = classical_data a) /\
  (forall action a a1,
     strat_act_on_state_vector_from_mixture action a = Ret (StratTrue, a1) ->
     exists index,
       apply_mixture action (prng_of a) (state a) = Ret (Some index, prng_of a1, state a1) /\
       classical_data a1 =
         (if is_measurement action
          then record_channel_measurement (classical_data a) (measurement_key_name action) index
          else classical_data a)) /\
  (forall action a a1,
     strat_act_on_state_vector_from_channel action a = Ret (StratTrue, a1) ->
     exists index,
       apply_channel action (prng_of a) (state a) = Ret (Some index, prng_of a1, state a1) /\
       classical_data a1 =
         (if is_measurement action
          then record_channel_measurement (classical_data a) (measurement_key_name action) index
          else classical_data a)) /\
  (forall action a r a1,
     strat_act_on_state_vector_from_mixture action a = Ret (r, a1) -> r <> StratTrue ->
     classical_data a1 = classical_data a) /\
  (forall action a r a1,
     strat_act_on_state_vector_from_channel action a = Ret (r, a1) -> r <> StratTrue ->
     classical_data a1 = classical_data a).
Proof.
  unfold strat_act_on_state_vector_from_apply_unitary,
    strat_act_on_state_vector_from_mixture, strat_act_on_state_vector_from_channel,
    record_if_measurement.
  repeat split.
  - intros action a r a1; destruct (apply_unitary action (state a)).
    intro H; now injection H as _ <-.
  - intros action a a1.
    destruct (apply_mixture action (prng_of a) (state a)) as [[[[i|] prng1] s1]|m];
      intro H; try discriminate; injection H as <-.
    exists i; split; reflexivity.
  - intros action a a1.
    destruct (apply_channel action (prng_of a) (state a)) as [[[[i|] prng1] s1]|m];
      intro H; try discriminate; injection H as <-.
    exists i; split; reflexivity.
  - intros action a r a1.
    destruct (apply_mixture action (prng_of a) (state a)) as [[[[i|] prng1] s1]|m];
      intros H Hr; try discriminate; injection H as <- <-; [congruence|reflexivity].
  - intros action a r a1.
    destruct (apply_channel action (prng_of a) (state a)) as [[[[i|] prng1] s1]|m];
      intros H Hr; try discriminate; injection H as <- <-; [congruence|reflexivity].
Qed.

(** ** Construction, copies and the arrays each operation writes *)

Ltac upd_crunch :=
  unfold upd; repeat match goal with
                     | |- context [Nat.eqb ?a ?b] => destruct (Nat.eqb_spec a b)
                     end; try lia; auto.

Lemma swap_mem r s : mem (swap_target_tensor_for r s) = mem s.
Proof. unfold swap_target_tensor_for; now destruct (Nat.eqb r (buffer s)). Qed.

Lemma prepare_frame kts k s s' :
  prepare_into_buffer kts k s = Ret s' ->
  state_vector s' = state_vector s /\ buffer s' = buffer s /\
  forall a, a <> buffer s -> mem s' a = mem s a.
Proof.
  unfold prepare_into_buffer; destruct (nth_error kts k); intro H; [|discriminate].
  injection H as <-; simpl; repeat split; intros a Ha; now apply upd_other.
Qed.

Lemma channel_loop_frame kts idxs :
  forall lv s lv' s', channel_loop kts idxs lv s = Ret (lv', s') ->
  state_vector s' = state_vector s /\ buffer s' = buffer s /\
  forall a, a <> buffer s -> mem s' a = mem s a.
Proof.
  induction idxs as [|i rest IH]; intros lv s lv' s' H; simpl in H.
  - injection H as _ <-; now repeat split.
  - destruct (prepare_into_buffer kts i s) as [s1|m] eqn:Hp; [|discriminate].
    destruct (prepare_frame _ _ _ _ Hp) as [E1 [E2 E3]].
    destruct (if Qltb (fallback_weight lv) _ then _ else _) as [fi fw].
    destruct (Qltb _ 0).
    + injection H as _ <-; now repeat split.
    + destruct (IH _ _ _ _ H) as [E4 [E5 E6]]; repeat split; try congruence.
      intros a Ha; rewrite E6 by congruence; now apply E3.
Qed.

Lemma apply_channel_frame action prng s r prng' s' :
  apply_channel action prng s = Ret (r, prng', s') ->
  forall a, a <> buffer s -> mem s' a = mem s a.
Proof.
  unfold apply_channel.
  destruct (kraus action) as [kts|]; [|intro H; now injection H as _ _ <-].
  destruct (prng_random prng) as [p0 prng1].
  destruct (channel_loop _ _ _ s) as [[lv s1]|m] eqn:Hl; [|discriminate].
  destruct (channel_loop_frame _ _ _ _ _ _ Hl) as [E1 [E2 E3]].
  destruct (weight lv) as [w|]; [|discriminate].
  destruct (Qle_bool 0 (p lv) || Qeq_bool w 0).
  - destruct (prepare_into_buffer kts (fallback_weight_index lv) s1) as [s2|m] eqn:Hp;
      [|discriminate].
    destruct (prepare_frame _ _ _ _ Hp) as [E4 [E5 E6]].
    intro H; injection H as _ _ <-; intros a Ha; rewrite swap_mem; simpl.
    rewrite upd_other by congruence. rewrite E6 by congruence. now apply E3.
  - intro H; injection H as _ _ <-; intros a Ha; rewrite swap_mem; simpl.
    rewrite upd_other by congruence. now apply E3.
Qed.

Lemma apply_channel_swaps action prng s kts r prng' s' :
  kraus action = Some kts ->
  apply_channel action prng s = Ret (r, prng', s') ->
  state_vector s' = buffer s /\ buffer s' = state_vector s.
Proof.
  unfold apply_channel; intro Hk; rewrite Hk.
  destruct (prng_random prng) as [p0 prng1].
  destruct (channel_loop _ _ _ s) as [[lv s1]|m] eqn:Hl; [|discriminate].
  destruct (channel_loop_ids _ _ _ _ _ _ Hl) as [E1 E2].
  destruct (weight lv) as [w|]; [|discriminate].
  destruct (Qle_bool 0 (p lv) || Qeq_bool w 0).
  - destruct (prepare_into_buffer kts (fallback_weight_index lv) s1) as [s2|m] eqn:Hp;
      [|discriminate].
    destruct (prepare_ids _ _ _ _ Hp) as [E3 E4].
    intro H; injection H as _ _ <-; unfold swap_target_tensor_for; simpl.
    rewrite Nat.eqb_refl; simpl; split; congruence.
  - intro H; injection H as _ _ <-; unfold swap_target_tensor_for; simpl.
    rewrite Nat.eqb_refl; simpl; split; congruence.
Qed.

(** [apply_channel] on a non-empty Kraus list returns an index. *)
Lemma apply_channel_nonempty_ok action prng s kts :
  no_alias s -> kraus action = Some kts -> kts <> [] ->
  exists i prng' s', apply_channel action prng s = Ret (Some i, prng', s').
Proof.
  intros Hs H Hne; unfold apply_channel; rewrite H.
  destruct (prng_random prng) as [p0 prng1].
  set (lv0 := mk_loop_vars p0 None 0 0 None).
  destruct (channel_loop_from_start kts s lv0 Hs eq_refl) as [s1 [Hl Hh]].
  rewrite Hl.
  assert (Hws : weights kts (mem s (state_vector s)) <> [])
    by (unfold weights; destruct kts; simpl; congruence).
  destruct (channel_scan_nonempty _ 0 lv0 Hws) as [[j Hj] [[w Hw] Hfi]].
  rewrite Hw.
  destruct (nth_error kts (fallback_weight_index
              (channel_scan (weights kts (mem s (state_vector s))) 0 lv0))) as [e|] eqn:He.
  - unfold buffer_holds in Hh.
    destruct (Qle_bool 0 _ || Qeq_bool w 0).
    + rewrite (prepare_from_holds kts s Hs _ s1 _ e Hh He). eauto.
    + rewrite Hj; eauto.
  - exfalso; apply nth_error_None in He.
    assert (List.length kts <> 0%nat) by (destruct kts; simpl; congruence).
    assert (Hlw : List.length (weights kts (mem s (state_vector s))) = List.length kts)
      by (unfold weights; apply length_map).
    rewrite Hlw in Hfi; simpl in Hfi; lia.
Qed.

(** The first step of [create]: the state vector is a new array, the last
    one allocated, and no array in use before the call changes. *)
Lemma create_state_vector_step h top initial_state qid_shape dtype buf s top' :
  create h top initial_state qid_shape dtype buf = Ret (s, top') ->
  exists h3 top3 r3,
    (top <= r3)%nat /\ top3 = S r3 /\ (forall a, (a < top)%nat -> h3 a = h a) /\
    s = init h3 r3 (h3 r3) (option_map (fun b => (b, h3 b)) buf) /\
    top' = (match buf with None => S top3 | Some _ => top3 end) /\
    (forall r0, initial_state = NdArray r0 -> qid_shape = None ->
       astype (h r0) dtype = None -> h3 r3 = h r0).
Proof.
  unfold create.
  set (stage := match initial_state with
                | StateVectorLike x => _
                | NdArray r0 => _
                end).
  assert (Hstage : forall h2 top2 r2, stage = Ret (h2, top2, r2) ->
            (top <= r2)%nat /\ top2 = S r2 /\ (forall a, (a < top)%nat -> h2 a = h a) /\
            (forall r0, initial_state = NdArray r0 -> qid_shape = None -> h2 r2 = h r0)).
  { intros h2 top2 r2; unfold stage, alloc.
    destruct initial_state as [r0|x].
    - destruct qid_shape as [shape|].
      + destruct (reshape (h r0) shape) as [[[|] v1]|m]; intro E; try discriminate;
          injection E as <- <- <-;
          (split; [lia|split; [reflexivity|split; [intros a Ha; upd_crunch|]]]);
          intros r1 _ Hq; discriminate.
      + intro E; injection E as <- <- <-;
          (split; [lia|split; [reflexivity|split; [intros a Ha; upd_crunch|]]]).
        intros r1 Hr _; injection Hr as <-; upd_crunch.
    - destruct qid_shape as [shape|]; [|discriminate].
      destruct (to_valid_state_vector x shape dtype) as [v|m]; [|discriminate].
      destruct (reshape v shape) as [[[|] v1]|m]; intro E; try discriminate;
        injection E as <- <- <-;
        (split; [lia|split; [reflexivity|split; [intros a Ha; upd_crunch|]]]);
        intros r1 Hr; discriminate. }
  destruct stage as [[[h2 top2] r2]|m]; [|discriminate].
  destruct (Hstage h2 top2 r2 eq_refl) as [H1 [H2 [H3 H4]]].
  intro E.
  set (st3 := match astype (h2 r2) dtype with
              | Some v => alloc h2 top2 v
              | None => (h2, top2, r2)
              end) in E.
  assert (Hst3 : forall h3 top3 r3, st3 = (h3, top3, r3) ->
            (top <= r3)%nat /\ top3 = S r3 /\ (forall a, (a < top)%nat -> h3 a = h a) /\
            (forall r0, initial_state = NdArray r0 -> qid_shape = None ->
               astype (h r0) dtype = None -> h3 r3 = h r0)).
  { intros h3 top3 r3; unfold st3, alloc.
    destruct (astype (h2 r2) dtype) as [v|] eqn:Ha.
    - intro E3; injection E3 as <- <- <-; repeat split; try lia.
      + intros a Hlt; upd_crunch.
      + intros r0 Hr Hq Hn. rewrite (H4 r0 Hr Hq) in Ha; congruence.
    - intro E3; injection E3 as <- <- <-; repeat split; try assumption.
      intros r0 Hr Hq _; exact (H4 r0 Hr Hq). }
  destruct st3 as [[h3 top3] r3].
  destruct (Hst3 h3 top3 r3 eq_refl) as [G1 [G2 [G3 G4]]].
  exists h3, top3, r3; repeat split; try assumption;
    destruct buf as [b|]; injection E as <- <-; reflexivity.
Qed.

Lemma create_fresh h top initial_state qid_shape dtype buf
  (Hb : forall b, buf = Some b -> (b < top)%nat) :
  (forall s top', create h top initial_state qid_shape dtype buf = Ret (s, top') ->
     no_alias s /\ (top <= state_vector s < top')%nat /\ (buffer s < top')%nat /\
     (forall r, (r < top)%nat -> mem s r = h r) /\
     (forall b, buf = Some b -> buffer s = b) /\
     (buf = None -> (top <= buffer s)%nat)) /\
  (forall r0 s top', initial_state = NdArray r0 -> qid_shape = None ->
     astype (h r0) dtype = None ->
     create h top initial_state qid_shape dtype buf = Ret (s, top') ->
     mem s (state_vector s) = h r0).
Proof.
  split.
  - intros s top' E.
    destruct (create_state_vector_step _ _ _ _ _ _ _ _ E)
      as [h3 [top3 [r3 [H1 [H2 [H3 [-> [-> _]]]]]]]].
    destruct buf as [b|]; unfold init, no_alias; simpl.
    + pose proof (Hb b eq_refl) as Hbt.
      split; [lia|split; [lia|split; [lia|split; [|split]]]].
      * intros r Hr; unfold upd; destruct (Nat.eqb_spec r r3); [lia|].
        destruct (Nat.eqb_spec r b); subst; apply H3; lia.
      * intros b' Hb'; now injection Hb' as ->.
      * discriminate.
    + split; [lia|split; [lia|split; [lia|split; [|split]]]].
      * intros r Hr; unfold upd; destruct (Nat.eqb_spec r r3); [lia|].
        destruct (Nat.eqb_spec r (S r3)); [lia|]. apply H3; lia.
      * intros b' Hb'; discriminate.
      * intros _; lia.
  - intros r0 s top' Hr Hq Ha E.
    destruct (create_state_vector_step _ _ _ _ _ _ _ _ E)
      as [h3 [top3 [r3 [H1 [H2 [H3 [-> [_ H5]]]]]]]].
    rewrite <- (H5 r0 Hr Hq Ha).
    destruct buf as [b|]; unfold init; simpl; upd_crunch.
Qed.

Lemma copy_false_shape top s :
  exists h, fst (copy false top s) = mk_bsv h top (buffer s) /\
    h top = mem s (state_vector s) /\
    (forall r, (r < top)%nat -> h r = mem s r).
Proof.
  unfold copy, alloc, init; cbn [fst].
  eexists; split; [reflexivity|split].
  - now rewrite !upd_same.
  - intros r Hr; unfold upd; destruct (Nat.eqb_spec r top); [lia|].
    destruct (Nat.eqb_spec r (buffer s)); [|reflexivity].
    subst; destruct (Nat.eqb_spec (buffer s) top); [lia|reflexivity].
Qed.

Lemma strat_unitary_not_implemented action a :
  apply_unitary_protocol action (mem (state a)) (state_vector (state a)) (buffer (state a))
    = None ->
  strat_act_on_state_vector_from_apply_unitary action a = Ret (StratNotImplemented, a).
Proof.
  intro Hu; unfold strat_act_on_state_vector_from_apply_unitary, apply_unitary.
  rewrite Hu; now destruct a.
Qed.

Lemma strat_mixture_not_implemented action a :
  mixture action = None ->
  strat_act_on_state_vector_from_mixture action a = Ret (StratNotImplemented, a).
Proof.
  intro Hm; unfold strat_act_on_state_vector_from_mixture, apply_mixture.
  rewrite Hm; now destruct a.
Qed.

Lemma act_on_fallback_cons3 action a allow_decompose :
  act_on_fallback action a allow_decompose
  = try_strategies action
      (strat_act_on_state_vector_from_apply_unitary ::
       strat_act_on_state_vector_from_mixture ::
       strat_act_on_state_vector_from_channel ::
       (if allow_decompose then [strat_act_on_from_apply_decompose] else [])) a.
Proof. reflexivity. Qed.

(** X1: handing the buffer to [_swap_target_tensor_for] twice (the second
    time the buffer is the former state vector) restores the object; any
    other array replaces the state vector and keeps the buffer, and handing
    back the state vector itself (an in-place result) changes nothing. *)
Theorem swap_target_tensor_round_trip s :
  (let s1 := swap_target_tensor_for (buffer s) s in
   swap_target_tensor_for (buffer s1) s1 = s) /\
  (forall r, r <> buffer s -> swap_target_tensor_for r s = mk_bsv (mem s) r (buffer s)) /\
  (no_alias s -> swap_target_tensor_for (state_vector s) s = s).
Proof.
  destruct s as [h sv b]; unfold swap_target_tensor_for, no_alias; simpl.
  split; [|split].
  - rewrite Nat.eqb_refl; simpl; now rewrite Nat.eqb_refl.
  - intros r Hr; apply Nat.eqb_neq in Hr; now rewrite Hr.
  - intro H; apply Nat.eqb_neq in H; now rewrite H.
Qed.

(** X2: [create] never makes the state vector one of the caller's arrays (an
    [np.ndarray] initial state is copied), gives the object two distinct
    arrays, keeps a supplied buffer as it is, allocates a new buffer
    otherwise, and changes no array in use before the call; from an ndarray
    without [qid_shape] and of the right dtype, the state vector holds the
    caller's contents. *)
Theorem create_fresh_state_vector h top initial_state qid_shape dtype buf
  (Hb : forall b, buf = Some b -> (b < top)%nat) :
  (forall s top', create h top initial_state qid_shape dtype buf = Ret (s, top') ->
     no_alias s /\ (top <= state_vector s < top')%nat /\ (buffer s < top')%nat /\
     (forall r, (r < top)%nat -> mem s r = h r) /\
     (forall b, buf = Some b -> buffer s = b) /\
     (buf = None -> (top <= buffer s)%nat)) /\
  (forall r0 s top', initial_state = NdArray r0 -> qid_shape = None ->
     astype (h r0) dtype = None ->
     create h top initial_state qid_shape dtype buf = Ret (s, top') ->
     mem s (state_vector s) = h r0).
Proof. exact (create_fresh h top initial_state qid_shape dtype buf Hb). Qed.

(** X3: [ActOnStateVectorArgs(...)] without [qubits] and without
    [target_tensor] raises [ValueError] for a non-ndarray [initial_state]
    (such as the default [0]); with a [target_tensor] the [initial_state] is
    ignored, and the state vector is a new array, never the caller's
    [target_tensor], which is left unchanged. *)
Theorem args_init_state_target_tensor_or_value_error h top available_buffer qubits
    initial_state dtype :
  (forall x, initial_state = StateVectorLike x ->
     args_init_state h top None available_buffer None initial_state dtype
     = Raise "ValueError: qid_shape must be provided if initial_state is not ndarray") /\
  (forall t initial_state',
     args_init_state h top (Some t) available_buffer qubits initial_state dtype
     = args_init_state h top (Some t) available_buffer qubits initial_state' dtype) /\
  (forall t s top', (t < top)%nat -> (forall b, available_buffer = Some b -> (b < top)%nat) ->
     args_init_state h top (Some t) available_buffer qubits initial_state dtype = Ret (s, top') ->
     state_vector s <> t /\ no_alias s /\ mem s t = h t).
Proof.
  split; [|split].
  - intros x ->; reflexivity.
  - reflexivity.
  - intros t s top' Ht Hb E; unfold args_init_state in E.
    destruct (create_fresh h top (NdArray t) (option_map (map dimension) qubits) dtype
                available_buffer Hb) as [H _].
    destruct (H s top' E) as [Ha [Hsv [_ [Hm _]]]].
    split; [lia|split; [exact Ha|now apply Hm]].
Qed.

(** X4: [copy()] gives a new state vector and a new buffer holding the
    original's contents, changes no existing array, and yields two distinct
    arrays; [copy(deep_copy_buffers=False)] gives a new state vector with the
    original's contents but reuses the original's buffer array. *)
Theorem copy_arrays top s :
  let c := fst (copy true top s) in
  let c' := fst (copy false top s) in
  no_alias c /\ (top <= state_vector c)%nat /\ (top <= buffer c)%nat /\
  mem c (state_vector c) = mem s (state_vector s) /\
  mem c (buffer c) = mem s (buffer s) /\
  (forall r, (r < top)%nat -> mem c r = mem s r) /\
  (top <= state_vector c')%nat /\ buffer c' = buffer s /\
  mem c' (state_vector c') = mem s (state_vector s) /\
  (forall r, (r < top)%nat -> mem c' r = mem s r) /\
  ((buffer s < top)%nat -> no_alias c').
Proof.
  intros c c'.
  destruct (copy_false_shape top s) as [h' [Hc' [Htop Hlow]]].
  unfold c'; rewrite Hc'; cbn [mem state_vector buffer].
  unfold c, copy, alloc, init, no_alias; cbn [mem state_vector buffer fst].
  split; [lia|split; [lia|split; [lia|split; [|split; [|split; [|split; [lia|split;
    [reflexivity|split; [exact Htop|split; [exact Hlow|intros Hb; lia]]]]]]]]]].
  - rewrite upd_same, upd_other by lia; apply upd_same.
  - rewrite upd_other by lia; now rewrite !upd_same.
  - intros r Hr. rewrite !upd_other by lia. reflexivity.
Qed.

(** X5: a copy made with [deep_copy_buffers=False] shares an array with the
    original: after the copy applies a channel, its state vector is the
    original's buffer, and when the original then applies a channel the two
    objects have the same state vector array. *)
Theorem copy_without_buffers_shares_arrays action prng s top k ks
  (Hs : no_alias s) (Hsv : (state_vector s < top)%nat) (Hbuf : (buffer s < top)%nat)
  (Hk : kraus action = Some (k :: ks)) :
  let c := fst (copy false top s) in
  exists i prng1 c1,
    apply_channel action prng c = Ret (Some i, prng1, c1) /\
    state_vector c1 = buffer s /\
    exists j prng2 s2,
      apply_channel action prng1 (mk_bsv (mem c1) (state_vector s) (buffer s))
        = Ret (Some j, prng2, s2) /\
      state_vector s2 = state_vector c1.
Proof.
  intro c.
  destruct (copy_false_shape top s) as [h' [Hc' _]]; fold c in Hc'.
  assert (Hc : no_alias c) by (rewrite Hc'; unfold no_alias; simpl; lia).
  destruct (apply_channel_nonempty_ok action prng c (k :: ks) Hc Hk ltac:(discriminate))
    as [i [prng1 [c1 E1]]].
  destruct (apply_channel_swaps _ _ _ _ _ _ _ Hk E1) as [F1 _].
  assert (Hsv1 : state_vector c1 = buffer s) by (rewrite F1, Hc'; reflexivity).
  exists i, prng1, c1; split; [exact E1|split; [exact Hsv1|]].
  set (s' := mk_bsv (mem c1) (state_vector s) (buffer s)).
  assert (Hs' : no_alias s') by exact Hs.
  destruct (apply_channel_nonempty_ok action prng1 s' (k :: ks) Hs' Hk ltac:(discriminate))
    as [j [prng2 [s2 E2]]].
  destruct (apply_channel_swaps _ _ _ _ _ _ _ Hk E2) as [F2 _].
  exists j, prng2, s2; split; [exact E2|].
  rewrite F2, Hsv1; reflexivity.
Qed.

(** X6: [apply_mixture] and [apply_channel] write into no array but the
    buffer (the former state vector keeps its contents), and [measure]
    writes into no array but the state vector, in place, keeping both ids. *)
Theorem buffered_ops_write_only_their_arrays s :
  (forall action prng r prng' s', apply_mixture action prng s = Ret (r, prng', s') ->
     forall a, a <> buffer s -> mem s' a = mem s a) /\
  (forall action prng r prng' s', apply_channel action prng s = Ret (r, prng', s') ->
     forall a, a <> buffer s -> mem s' a = mem s a) /\
  (forall prng bits prng' s', measure prng s = (bits, prng', s') ->
     state_vector s' = state_vector s /\ buffer s' = buffer s /\
     forall a, a <> state_vector s -> mem s' a = mem s a).
Proof.
  split; [|split].
  - intros action prng r prng' s'; unfold apply_mixture.
    destruct (mixture action) as [mix|]; [|intro H; now injection H as _ _ <-].
    destruct (prng_choice _ _) as [i prng1].
    destruct (nth_error _ i); intro H; [|discriminate].
    injection H as _ _ <-; intros a Ha; rewrite swap_mem; simpl.
    now apply upd_other.
  - intros action prng r prng' s'; apply apply_channel_frame.
  - intros prng bits prng' s'; unfold measure.
    destruct (measure_state_vector _ _) as [[b v] prng1]; intro H.
    injection H as _ _ <-; simpl; split; [reflexivity|split; [reflexivity|]].
    intros a Ha; now apply upd_other.
Qed.

(** X7: an action whose [apply_unitary] succeeds is handled by the unitary
    strategy alone: [_act_on_fallback_] returns [True] with the state after
    [apply_unitary], draws nothing from the generator and records no
    measurement, whatever mixture or Kraus operators the action also has. *)
Theorem act_on_fallback_unitary_first action a allow_decompose r h
  (Hu : apply_unitary_protocol action (mem (state a)) (state_vector (state a))
          (buffer (state a)) = Some (r, h)) :
  act_on_fallback action a allow_decompose
  = Ret (true, mk_args (swap_target_tensor_for r
                          (mk_bsv h (state_vector (state a)) (buffer (state a))))
                 (prng_of a) (classical_data a)).
Proof.
  rewrite act_on_fallback_cons3; apply try_strategies_true.
  unfold strat_act_on_state_vector_from_apply_unitary, apply_unitary.
  now rewrite Hu.
Qed.



(** X10: for an action without a unitary or mixture whose Kraus list is
    empty, [_act_on_fallback_] fails with the assertion "No Kraus operators"
    of [apply_channel]: the error propagates, the decomposition is never
    tried and no [TypeError] is raised, whether or not decomposition is
    allowed. *)
Theorem act_on_fallback_empty_kraus_asserts action a allow_decompose
  (Hu : apply_unitary_protocol action (mem (state a)) (state_vector (state a))
          (buffer (state a)) = None)
  (Hm : mixture action = None) (Hk : kraus action = Some []) :
  act_on_fallback action a allow_decompose = Raise "AssertionError: No Kraus operators".
Proof.
  rewrite act_on_fallback_cons3.
  rewrite (try_strategies_not_implemented _ _ _ _ _ (strat_unitary_not_implemented _ _ Hu)).
  rewrite (try_strategies_not_implemented _ _ _ _ _ (strat_mixture_not_implemented _ _ Hm)).
  simpl; unfold strat_act_on_state_vector_from_channel, apply_channel; rewrite Hk.
  now destruct (prng_random (prng_of a)).
Qed.

End Model.

(** ** Instances of the claims on a concrete model *)

Module Example.
(** A concrete instance of the collaborators: one-entry arrays [Vec = Q],
    Kraus operators and unitaries as scalar factors, one action [tt], and a
    generator that returns its seed as the drawn number.  [norm_sq] is the
    absolute value, so that on the contents 1 the operators [0.3] and [0.7]
    have the weights 0.3 and 0.7 of the spec's example; [div_sqrt] leaves the
    array as it is (no claim depends on the renormalized contents). *)
Definition tlm (e v : Q) : Q := e * v.
Definition norm_sq (v : Q) : Q := Qabs v.
Definition div_sqrt (v w : Q) : Q := v.
Definition empty_like (v : Q) : Q := 0.
Definition kraus (a : unit) : option (list Q) := Some [3#10; 7#10].
Definition no_kraus (a : unit) : option (list Q) := None.
Definition no_mixture (a : unit) : option (list (Q * Q)) := None.
Definition mixture (a : unit) : option (list (Q * Q)) := Some [(1, 1)].
Definition no_unitary (a : unit) (h : nat -> Q) (sv buf : nat) : option (nat * (nat -> Q)) := None.
Definition prng_random (r : Q) : Q * Q := (r, r).
Definition prng_choice (r : Q) (ps : list Q) : nat * Q := (0%nat, r).
Definition measure_state_vector (r : Q) (v : Q) : list nat * Q * Q := ([], v, r).
Definition bsv0 : bsv Q := mk_bsv Q (fun _ => 1) 0 1.
Definition no_decompose (a : unit) (x : args Q Q unit) : outcome (strat_result * args Q Q unit) :=
  Ret (StratNotImplemented, x).
Definition args0 : args Q Q unit := mk_args Q Q unit bsv0 0 tt.
End Example.

Lemma example_norm_sq_nonneg (v : Q) : 0 <= Example.norm_sq v.
Proof. apply Qabs_nonneg. Qed.

Lemma apply_channel_first_crossing_witness :
  Example.kraus tt = Some [3#10; 7#10] /\ no_alias Q Example.bsv0 /\
  0 <= fst (Example.prng_random (95#100)) /\
  first_negative (running_differences (fst (Example.prng_random (95#100)))
    (weights Q Q Example.tlm Example.norm_sq [3#10; 7#10]
       (mem Q Example.bsv0 (state_vector Q Example.bsv0)))) = Some 1%nat /\
  exists e, nth_error [3#10; 7#10] 1 = Some e /\
    apply_channel Q Q unit Q Example.tlm Example.norm_sq Example.div_sqrt Example.kraus
      Example.prng_random tt (95#100) Example.bsv0
    = Ret (Some 1%nat, snd (Example.prng_random (95#100)),
           renormalized_swap Q Q Example.tlm Example.div_sqrt Example.bsv0 e
             (Example.norm_sq (Example.tlm e (mem Q Example.bsv0 (state_vector Q Example.bsv0))))).
Proof.
  assert (Hk : Example.kraus tt = Some [3#10; 7#10]) by reflexivity.
  assert (Hs : no_alias Q Example.bsv0) by (vm_compute; discriminate).
  assert (Hp : 0 <= fst (Example.prng_random (95#100))) by (vm_compute; discriminate).
  assert (Hc : first_negative (running_differences (fst (Example.prng_random (95#100)))
    (weights Q Q Example.tlm Example.norm_sq [3#10; 7#10]
       (mem Q Example.bsv0 (state_vector Q Example.bsv0)))) = Some 1%nat) by (vm_compute; reflexivity).
  split; [exact Hk | split; [exact Hs | split; [exact Hp | split; [exact Hc |]]]].
  exact (apply_channel_first_crossing Q Q unit Q Example.tlm Example.norm_sq Example.div_sqrt
           Example.kraus Example.prng_random tt (95#100) Example.bsv0 [3#10; 7#10] Hk Hs Hp 1%nat Hc).
Defined.

Lemma apply_channel_fallback_and_renormalize_witness :
  (forall v, 0 <= Example.norm_sq v) /\ Example.kraus tt = Some [3#10; 7#10] /\
  [3#10; 7#10] <> [] /\ no_alias Q Example.bsv0 /\
  let p0 := fst (Example.prng_random 2) in
  let ws := weights Q Q Example.tlm Example.norm_sq [3#10; 7#10]
              (mem Q Example.bsv0 (state_vector Q Example.bsv0)) in
  ((first_negative (running_differences p0 ws) = None \/
    exists k w, first_negative (running_differences p0 ws) = Some k /\
                nth_error ws k = Some w /\ w == 0) ->
   exists i s', apply_channel Q Q unit Q Example.tlm Example.norm_sq Example.div_sqrt
                  Example.kraus Example.prng_random tt 2 Example.bsv0
                = Ret (Some i, snd (Example.prng_random 2), s') /\
                is_first_argmax (firstn (visited p0 ws) ws) i)
  /\
  (forall i prng' s', apply_channel Q Q unit Q Example.tlm Example.norm_sq Example.div_sqrt
                        Example.kraus Example.prng_random tt 2 Example.bsv0
                      = Ret (Some i, prng', s') ->
   exists e w, nth_error [3#10; 7#10] i = Some e /\
     w == Example.norm_sq (Example.tlm e (mem Q Example.bsv0 (state_vector Q Example.bsv0))) /\
     s' = renormalized_swap Q Q Example.tlm Example.div_sqrt Example.bsv0 e w).
Proof.
  assert (Hk : Example.kraus tt = Some [3#10; 7#10]) by reflexivity.
  assert (Hne : [3#10; 7#10] <> []) by discriminate.
  assert (Hs : no_alias Q Example.bsv0) by (vm_compute; discriminate).
  split; [exact example_norm_sq_nonneg | split; [exact Hk | split; [exact Hne | split; [exact Hs |]]]].
  exact (apply_channel_fallback_and_renormalize Q Q unit Q Example.tlm Example.norm_sq
           Example.div_sqrt Example.kraus Example.prng_random tt 2 Example.bsv0 [3#10; 7#10]
           example_norm_sq_nonneg Hk Hne Hs).
Defined.

Lemma apply_channel_empty_kraus_asserts_witness :
  no_alias Q Example.bsv0 /\
  (Example.kraus tt = None ->
   apply_channel Q Q unit Q Example.tlm Example.norm_sq Example.div_sqrt Example.kraus
     Example.prng_random tt 0 Example.bsv0 = Ret (None, 0, Example.bsv0)) /\
  (Example.kraus tt = Some [] ->
   apply_channel Q Q unit Q Example.tlm Example.norm_sq Example.div_sqrt Example.kraus
     Example.prng_random tt 0 Example.bsv0 = Raise "AssertionError: No Kraus operators") /\
  (forall kraus_tensors, Example.kraus tt = Some kraus_tensors -> kraus_tensors <> [] ->
   exists i prng' s', apply_channel Q Q unit Q Example.tlm Example.norm_sq Example.div_sqrt
     Example.kraus Example.prng_random tt 0 Example.bsv0 = Ret (Some i, prng', s')).
Proof.
  assert (Hs : no_alias Q Example.bsv0) by (vm_compute; discriminate).
  split; [exact Hs |].
  exact (apply_channel_empty_kraus_asserts Q Q unit Q Example.tlm Example.norm_sq
           Example.div_sqrt Example.kraus Example.prng_random tt 0 Example.bsv0 Hs).
Defined.

Lemma buffered_ops_keep_state_and_buffer_apart_witness :
  no_alias Q Example.bsv0 /\
  (forall h sv v, no_alias Q (init Q Example.empty_like h sv v None)) /\
  (forall h sv v b bv, b <> sv -> no_alias Q (init Q Example.empty_like h sv v (Some (b, bv)))) /\
  (forall action ok s', apply_unitary Q unit Example.no_unitary action Example.bsv0 = (ok, s') ->
     no_alias Q s') /\
  (forall action prng r prng' s',
     apply_mixture Q Q unit Q Example.tlm Example.mixture Example.prng_choice action prng
       Example.bsv0 = Ret (r, prng', s') -> no_alias Q s') /\
  (forall action prng r prng' s',
     apply_channel Q Q unit Q Example.tlm Example.norm_sq Example.div_sqrt Example.kraus
       Example.prng_random action prng Example.bsv0 = Ret (r, prng', s') -> no_alias Q s') /\
  (forall prng bits prng' s',
     measure Q Q Example.measure_state_vector prng Example.bsv0 = (bits, prng', s') ->
     no_alias Q s') /\
  swap_target_tensor_for Q (buffer Q Example.bsv0) Example.bsv0
  = mk_bsv Q (mem Q Example.bsv0) (buffer Q Example.bsv0) (state_vector Q Example.bsv0).
Proof.
  assert (Hs : no_alias Q Example.bsv0) by (vm_compute; discriminate).
  split; [exact Hs |].
  exact (buffered_ops_keep_state_and_buffer_apart Q Q Q unit Q Example.tlm Example.tlm
           Example.norm_sq Example.div_sqrt Example.empty_like Example.kraus Example.mixture
           Example.no_unitary Example.prng_random Example.prng_choice
           Example.measure_state_vector Example.bsv0 Hs).
Defined.

Lemma act_on_fallback_type_error_omits_channel_witness :
  strat_act_on_state_vector_from_apply_unitary Q unit Q Example.no_unitary unit tt
    Example.args0 = Ret (StratNotImplemented, Example.args0) /\
  strat_act_on_state_vector_from_mixture Q Q unit Q Example.tlm Example.no_mixture
    Example.prng_choice unit (fun cd _ _ => cd) (fun _ => false) (fun _ => "m"%string) tt
    Example.args0 = Ret (StratNotImplemented, Example.args0) /\
  strat_act_on_state_vector_from_channel Q Q unit Q Example.tlm Example.norm_sq
    Example.div_sqrt Example.no_kraus Example.prng_random unit (fun cd _ _ => cd)
    (fun _ => false) (fun _ => "m"%string) tt Example.args0
    = Ret (StratNotImplemented, Example.args0) /\
  act_on_fallback Q Q Q unit Q Example.tlm Example.tlm Example.norm_sq Example.div_sqrt
    Example.no_kraus Example.no_mixture Example.no_unitary Example.prng_random
    Example.prng_choice unit (fun cd _ _ => cd) (fun _ => false) (fun _ => "m"%string)
    (fun _ => "CustomChannel()"%string) Example.no_decompose tt Example.args0 false
  = Raise (type_error_message unit (fun _ => "CustomChannel()"%string) tt) /\
  mentions "SupportsMixture" type_error_capabilities = true /\
  mentions "channel" type_error_capabilities = false /\
  mentions "Channel" type_error_capabilities = false /\
  mentions "Kraus" type_error_capabilities = false.
Proof.
  assert (Hu : strat_act_on_state_vector_from_apply_unitary Q unit Q Example.no_unitary unit tt
    Example.args0 = Ret (StratNotImplemented, Example.args0)) by reflexivity.
  assert (Hm : strat_act_on_state_vector_from_mixture Q Q unit Q Example.tlm Example.no_mixture
    Example.prng_choice unit (fun cd _ _ => cd) (fun _ => false) (fun _ => "m"%string) tt
    Example.args0 = Ret (StratNotImplemented, Example.args0)) by reflexivity.
  assert (Hc : strat_act_on_state_vector_from_channel Q Q unit Q Example.tlm Example.norm_sq
    Example.div_sqrt Example.no_kraus Example.prng_random unit (fun cd _ _ => cd)
    (fun _ => false) (fun _ => "m"%string) tt Example.args0
    = Ret (StratNotImplemented, Example.args0)) by reflexivity.
  split; [exact Hu | split; [exact Hm | split; [exact Hc |]]].
  exact (act_on_fallback_type_error_omits_channel Q Q Q unit Q Example.tlm Example.tlm
           Example.norm_sq Example.div_sqrt Example.no_kraus Example.no_mixture
           Example.no_unitary Example.prng_random Example.prng_choice unit (fun cd _ _ => cd)
           (fun _ => false) (fun _ => "m"%string) (fun _ => "CustomChannel()"%string)
           Example.no_decompose tt Example.args0 false Example.args0 Example.args0
           Example.args0 Hu Hm Hc (or_introl eq_refl)).
Defined.

(** ** Instances of the further properties *)

Module Example2.
(** Further collaborators on the instance of [Example]: an action whose
    unitary is written into the buffer, an empty Kraus list, and [create]'s
    numpy calls on one-entry arrays. *)
Definition unitary (a : unit) (h : nat -> Q) (sv buf : nat) : option (nat * (nat -> Q)) :=
  Some (buf, h).
Definition empty_kraus (a : unit) : option (list Q) := Some [].
Definition reshape (v : Q) (shape : list nat) : outcome (bool * Q) := Ret (true, v).
Definition astype (v : Q) (d : unit) : option Q := None.
Definition to_valid_state_vector (x : unit) (shape : list nat) (d : unit) : outcome Q := Ret 1.
Definition fallback (unitary_ : unit -> (nat -> Q) -> nat -> nat -> option (nat * (nat -> Q)))
    (mixture_ : unit -> option (list (Q * Q))) (kraus_ : unit -> option (list Q)) :=
  act_on_fallback Q Q Q unit Q Example.tlm Example.tlm Example.norm_sq Example.div_sqrt
    kraus_ mixture_ unitary_ Example.prng_random Example.prng_choice unit
    (fun cd _ _ => cd) (fun _ => false) (fun _ => "m"%string) (fun _ => "m"%string)
    Example.no_decompose.
End Example2.

Lemma create_fresh_state_vector_witness :
  (forall b, (None : option nat) = Some b -> (b < 2)%nat) /\
  exists s top',
    create Q Example.empty_like unit unit Example2.reshape Example2.astype
      Example2.to_valid_state_vector (fun _ => 1) 2 (NdArray unit 0) None tt None
    = Ret (s, top') /\
    no_alias Q s /\ mem Q s (state_vector Q s) = 1.
Proof.
  assert (Hb : forall b, (None : option nat) = Some b -> (b < 2)%nat) by discriminate.
  split; [exact Hb|].
  destruct (create_fresh_state_vector Q Example.empty_like unit unit Example2.reshape
              Example2.astype Example2.to_valid_state_vector (fun _ => 1) 2 (NdArray unit 0)
              None tt None Hb) as [H1 H2].
  eexists; eexists; split; [reflexivity|].
  split; [exact (proj1 (H1 _ _ eq_refl))|exact (H2 0%nat _ _ eq_refl eq_refl eq_refl eq_refl)].
Defined.

Lemma copy_without_buffers_shares_arrays_witness :
  no_alias Q Example.bsv0 /\ (state_vector Q Example.bsv0 < 2)%nat /\
  (buffer Q Example.bsv0 < 2)%nat /\ Example.kraus tt = Some [3#10; 7#10] /\
  exists i prng1 c1,
    apply_channel Q Q unit Q Example.tlm Example.norm_sq Example.div_sqrt Example.kraus
      Example.prng_random tt (1#2) (fst (copy Q Example.empty_like false 2 Example.bsv0))
    = Ret (Some i, prng1, c1) /\
    state_vector Q c1 = buffer Q Example.bsv0.
Proof.
  assert (Hs : no_alias Q Example.bsv0) by (vm_compute; discriminate).
  assert (Hsv : (state_vector Q Example.bsv0 < 2)%nat) by (cbn; lia).
  assert (Hbuf : (buffer Q Example.bsv0 < 2)%nat) by (cbn; lia).
  assert (Hk : Example.kraus tt = Some [3#10; 7#10]) by reflexivity.
  split; [exact Hs|split; [exact Hsv|split; [exact Hbuf|split; [exact Hk|]]]].
  pose proof (copy_without_buffers_shares_arrays Q Q unit Q Example.tlm Example.norm_sq
                Example.div_sqrt Example.empty_like Example.kraus Example.prng_random tt (1#2)
                Example.bsv0 2 (3#10) [7#10] Hs Hsv Hbuf Hk) as H.
  cbv zeta in H.
  destruct H as [i [prng1 [c1 [E1 [E2 _]]]]].
  exists i, prng1, c1; split; [exact E1|exact E2].
Defined.

Lemma act_on_fallback_unitary_first_witness :
  Example2.unitary tt (mem Q (state Q Q unit Example.args0))
    (state_vector Q (state Q Q unit Example.args0)) (buffer Q (state Q Q unit Example.args0))
  = Some (1%nat, mem Q Example.bsv0) /\
  Example2.fallback Example2.unitary Example.mixture Example.kraus tt Example.args0 true
  = Ret (true, mk_args Q Q unit (mk_bsv Q (mem Q Example.bsv0) 1 0) 0 tt).
Proof.
  assert (Hu : Example2.unitary tt (mem Q (state Q Q unit Example.args0))
                 (state_vector Q (state Q Q unit Example.args0))
                 (buffer Q (state Q Q unit Example.args0))
               = Some (1%nat, mem Q Example.bsv0)) by reflexivity.
  split; [exact Hu|].
  exact (act_on_fallback_unitary_first Q Q Q unit Q Example.tlm Example.tlm Example.norm_sq
           Example.div_sqrt Example.kraus Example.mixture Example2.unitary Example.prng_random
           Example.prng_choice unit (fun cd _ _ => cd) (fun _ => false) (fun _ => "m"%string)
           (fun _ => "m"%string) Example.no_decompose tt Example.args0 true 1%nat
           (mem Q Example.bsv0) Hu).
Defined.



Lemma act_on_fallback_empty_kraus_asserts_witness :
  Example.no_unitary tt (mem Q (state Q Q unit Example.args0))
    (state_vector Q (state Q Q unit Example.args0)) (buffer Q (state Q Q unit Example.args0))
  = None /\
  Example.no_mixture tt = None /\ Example2.empty_kraus tt = Some [] /\
  Example2.fallback Example.no_unitary Example.no_mixture Example2.empty_kraus tt
    Example.args0 true
  = Raise "AssertionError: No Kraus operators".
Proof.
  assert (Hu : Example.no_unitary tt (mem Q (state Q Q unit Example.args0))
                 (state_vector Q (state Q Q unit Example.args0))
                 (buffer Q (state Q Q unit Example.args0)) = None) by reflexivity.
  assert (Hm : Example.no_mixture tt = None) by reflexivity.
  assert (Hk : Example2.empty_kraus tt = Some []) by reflexivity.
  split; [exact Hu|split; [exact Hm|split; [exact Hk|]]].
  exact (act_on_fallback_empty_kraus_asserts Q Q Q unit Q Example.tlm Example.tlm
           Example.norm_sq Example.div_sqrt Example2.empty_kraus Example.no_mixture
           Example.no_unitary Example.prng_random Example.prng_choice unit
           (fun cd _ _ => cd) (fun _ => false) (fun _ => "m"%string) (fun _ => "m"%string)
           Example.no_decompose tt Example.args0 true Hu Hm Hk).
Defined.


End ActOnStateVector.

(** * Clifford tableaux and Clifford gates

    [clifford_gate.py] and [clifford_tableau.py] are not among the sources;
    only [clifford_gate_test.py] is.  The definitions below follow the spec's
    description of the stabilizer tableau (sec. 3, 4.1 and 4.3) and of the
    single-qubit Clifford gates (sec. 3, 4.2). *)
Module Clifford.

Open Scope Z_scope.

(** ** Paulis and Pauli transforms *)

(** [cirq.X], [cirq.Y], [cirq.Z] in the [(X, Y, Z)] cycle. *)
Inductive Pauli := PX | PY | PZ.

Definition pauli_index (p : Pauli) : Z :=
  match p with PX => 0 | PY => 1 | PZ => 2 end.

Definition pauli_eqb (a b : Pauli) : bool := Z.eqb (pauli_index a) (pauli_index b).

(** Modelled from the spec: [Pauli.relative_index] (in [pauli_gates.py]), the
    relative index of [a] with respect to [b] in the [(X, Y, Z)] cycle. *)
Definition relative_index (a b : Pauli) : Z :=
  (pauli_index a - pauli_index b + 1) mod 3 - 1.

(** [PauliTransform(to, flip)] *)
Record PauliTransform := mk_pt { to : Pauli; flip : bool }.

Definition pt_eqb (t u : PauliTransform) : bool :=
  pauli_eqb (to t) (to u) && Bool.eqb (flip t) (flip u).

(** Symplectic bits [(x, z)] of a Pauli. *)
Definition pauli_bits (p : Pauli) : bool * bool :=
  match p with PX => (true, false) | PY => (true, true) | PZ => (false, true) end.

Definition pauli_of_bits (x z : bool) : option Pauli :=
  match x, z with
  | true, false => Some PX
  | true, true => Some PY
  | false, true => Some PZ
  | false, false => None
  end.

(** ** Pauli strings

    [mk_ps k x z] is the operator [i^k X^x Z^z], where [X^x] is the tensor
    product of [X] on the qubits whose bit of [x] is set (likewise [Z^z]);
    the phase is kept modulo 4.  A Hermitian Pauli string with sign bit [r]
    and a [Y] on [c] qubits has phase [2 r + c]. *)
Record pauli_string := mk_ps { phase : Z; xbits : list bool; zbits : list bool }.

Fixpoint xor_bits (a b : list bool) : list bool :=
  match a, b with
  | x :: a', y :: b' => xorb x y :: xor_bits a' b'
  | _, _ => []
  end.

Fixpoint and_count (a b : list bool) : Z :=
  match a, b with
  | x :: a', y :: b' => (if x && y then 1 else 0) + and_count a' b'
  | _, _ => 0
  end.

(** [(i^k X^x Z^z) (i^l X^x' Z^z') = i^(k + l + 2 z.x') X^(x+x') Z^(z+z')] *)
Definition ps_mul (a b : pauli_string) : pauli_string :=
  mk_ps ((phase a + phase b + 2 * and_count (zbits a) (xbits b)) mod 4)
    (xor_bits (xbits a) (xbits b)) (xor_bits (zbits a) (zbits b)).

Definition zeros (n : nat) : list bool := repeat false n.

Definition unit_bits (n j : nat) : list bool := map (fun k => Nat.eqb k j) (seq 0 n).

(** The sign bit of a Hermitian Pauli string. *)
Definition sign_of (a : pauli_string) : bool :=
  Z.eqb ((phase a - and_count (xbits a) (zbits a)) mod 4) 2.

(** ** Stabilizer tableau

    [CliffordTableau(num_qubits=n)]: rows [0 .. n-1] are the images of [X_i],
    rows [n .. 2n-1] the images of [Z_i]; [xs], [zs] are the [2n] rows of the
    X and Z blocks and [rs] the sign bits. *)
Record CliffordTableau := mk_tableau {
  n : nat;
  rs : list bool;
  xs : list (list bool);
  zs : list (list bool);
}.

Definition row (t : CliffordTableau) (i : nat) : pauli_string :=
  let x := nth i (xs t) (zeros (n t)) in
  let z := nth i (zs t) (zeros (n t)) in
  mk_ps ((2 * Z.b2z (nth i (rs t) false) + and_count x z) mod 4) x z.

Definition tableau_of_rows (m : nat) (rows : list pauli_string) : CliffordTableau :=
  mk_tableau m (map sign_of rows) (map xbits rows) (map zbits rows).

(** The generators [X_0 .. X_(n-1), Z_0 .. Z_(n-1)]. *)
Definition generator (m i : nat) : pauli_string :=
  if Nat.ltb i m then mk_ps 0 (unit_bits m i) (zeros m)
  else mk_ps 0 (zeros m) (unit_bits m (i - m)%nat).

(** [CliffordTableau(num_qubits=m)]: the identity transformation. *)
Definition identity_tableau (m : nat) : CliffordTableau :=
  tableau_of_rows m (map (generator m) (seq 0 (2 * m)%nat)).

(** The image of a Pauli string: [i^k X^x Z^z] goes to [i^k] times the
    product, in generator order, of the rows selected by [x ++ z]. *)
Definition apply_tableau (t : CliffordTableau) (a : pauli_string) : pauli_string :=
  fold_left (fun acc (ge : pauli_string * bool) => if snd ge then ps_mul acc (fst ge) else acc)
    (combine (map (row t) (seq 0 (2 * n t)%nat)) (xbits a ++ zbits a))
    (mk_ps (phase a mod 4) (zeros (n t)) (zeros (n t))).

(** [t.then(u)]: apply [t], then [u], to every Pauli. *)
Definition tableau_then (t u : CliffordTableau) : CliffordTableau :=
  tableau_of_rows (n t) (map (fun i => apply_tableau u (row t i)) (seq 0 (2 * n t)%nat)).

(** Symplectic product: 1 when the two strings anticommute. *)
Definition symplectic (a b : pauli_string) : Z :=
  (and_count (xbits a) (zbits b) + and_count (zbits a) (xbits b)) mod 2.

(** The symplectic invariant: the rows commute as the generators do. *)
Definition validate (t : CliffordTableau) : bool :=
  forallb (fun i => forallb (fun j =>
      Z.eqb (symplectic (row t i) (row t j)) (symplectic (generator (n t) i) (generator (n t) j)))
    (seq 0 (2 * n t)%nat)) (seq 0 (2 * n t)%nat).

(** ** Single-qubit Clifford gates *)

(** [SingleQubitCliffordGate], backed by a one-qubit tableau. *)
Record SingleQubitCliffordGate := mk_sq { clifford_tableau : CliffordTableau }.

(** Modelled from the spec: [_to_clifford_tableau(x_to=..., z_to=...)]: row 0
    holds the image of [X], row 1 the image of [Z], the flips are the signs. *)
Definition to_clifford_tableau (x_to z_to : PauliTransform) : CliffordTableau :=
  let '(x0, z0) := pauli_bits (to x_to) in
  let '(x1, z1) := pauli_bits (to z_to) in
  mk_tableau 1 [flip x_to; flip z_to] [[x0]; [x1]] [[z0]; [z1]].

(** Modelled from the spec: [from_clifford_tableau] refuses a tableau that
    breaks the symplectic invariant. *)
Definition from_clifford_tableau (t : CliffordTableau) : outcome SingleQubitCliffordGate :=
  if Nat.eqb (n t) 1 && validate t then Ret (mk_sq t)
  else Raise "ValueError: It is not a valid Clifford tableau.".

(** Modelled from the spec: [SingleQubitCliffordGate.from_xz_map(x_to, z_to)]. *)
Definition from_xz_map (x_to z_to : PauliTransform) : outcome SingleQubitCliffordGate :=
  from_clifford_tableau (to_clifford_tableau x_to z_to).

(** The one-qubit Pauli string of [X], [Y = i X Z] or [Z]. *)
Definition pauli_string_of (p : Pauli) : pauli_string :=
  let '(x, z) := pauli_bits p in mk_ps (if x && z then 1 else 0) [x] [z].

(** Modelled from the spec: [gate.transform(pauli)]: the image of the Pauli,
    with [flip] set when its coefficient is [-1]. *)
Definition transform (g : SingleQubitCliffordGate) (p : Pauli) : option PauliTransform :=
  let a := apply_tableau (clifford_tableau g) (pauli_string_of p) in
  match pauli_of_bits (hd false (xbits a)) (hd false (zbits a)) with
  | Some q => Some (mk_pt q (sign_of a))
  | None => None
  end.

(** [_all_rotation_pairs()] of the test: [itertools.product(_paulis, _bools,
    _paulis, _bools)] without the pairs of equal axes. *)
Definition paulis : list Pauli := [PX; PY; PZ].
Definition bools : list bool := [false; true].

Definition all_rotation_pairs : list (PauliTransform * PauliTransform) :=
  flat_map (fun px => flat_map (fun fx => flat_map (fun pz => flat_map (fun fz =>
      if pauli_eqb px pz then [] else [(mk_pt px fx, mk_pt pz fz)])
    bools) paulis) bools) paulis.

(** [tableau.matrix()] of a one-qubit tableau: row [i] is [xs[i] ++ zs[i]]. *)
Definition matrix (t : CliffordTableau) : list (list bool) :=
  map (fun i => nth i (xs t) [] ++ nth i (zs t) []) (seq 0 (2 * n t)%nat).

(** [sum(2 ** i * t for i, t in enumerate(tableau.matrix().ravel()))], then
    [* 4 + 2 * rs[0] + rs[1]]. *)
Definition tableau_number (t : CliffordTableau) : Z :=
  let ravel := List.concat (matrix t) in
  let base := fold_right (fun b acc => Z.b2z b + 2 * acc) 0 ravel in
  base * 4 + 2 * Z.b2z (nth 0 (rs t) false) + Z.b2z (nth 1 (rs t) false).

(** [sum(tableau.matrix()[0, :2] * tableau.matrix()[1, 1::-1]) % 2] *)
Definition single_qubit_symplectic (t : CliffordTableau) : Z :=
  let m := matrix t in
  let r0 := nth 0 m [] in let r1 := nth 1 m [] in
  (Z.b2z (nth 0 r0 false && nth 1 r1 false) + Z.b2z (nth 1 r0 false && nth 0 r1 false)) mod 2.

Definition tableau_eq_dec (t u : CliffordTableau) : {t = u} + {t <> u}.
Proof.
  decide equality; try apply list_eq_dec; try apply list_eq_dec;
    try apply bool_dec; apply Nat.eq_dec.
Defined.

Definition tableau_eqb (t u : CliffordTableau) : bool :=
  if tableau_eq_dec t u then true else false.

(** [set(...)] of a list, as a list without repetitions. *)
Fixpoint dedup {A} (eqb : A -> A -> bool) (l : list A) : list A :=
  match l with
  | [] => []
  | a :: l' => if existsb (eqb a) l' then dedup eqb l' else a :: dedup eqb l'
  end.

(** [right_handed] of [_assert_not_mirror]. *)
Definition right_handed (tx ty tz : PauliTransform) : bool :=
  xorb (xorb (xorb (flip tx) (flip ty)) (flip tz)) (negb (Z.eqb (relative_index (to tx) (to ty)) 1)).

(** Modelled from the spec: the named gates [SingleQubitCliffordGate.I, X, Y,
    Z, H] and the square roots [X_sqrt, X_nsqrt, ...], by their action on
    [X] and [Z] (as in [test_repr]: [X_sqrt] is [X:+X, Y:+Z, Z:-Y]). *)
Definition gate_of (x_to z_to : PauliTransform) : SingleQubitCliffordGate :=
  mk_sq (to_clifford_tableau x_to z_to).

Definition I_gate := gate_of (mk_pt PX false) (mk_pt PZ false).
Definition X_gate := gate_of (mk_pt PX false) (mk_pt PZ true).
Definition Y_gate := gate_of (mk_pt PX true) (mk_pt PZ true).
Definition Z_gate := gate_of (mk_pt PX true) (mk_pt PZ false).
Definition H_gate := gate_of (mk_pt PZ false) (mk_pt PX false).
Definition X_sqrt := gate_of (mk_pt PX false) (mk_pt PY true).
Definition X_nsqrt := gate_of (mk_pt PX false) (mk_pt PY false).
Definition Y_sqrt := gate_of (mk_pt PZ true) (mk_pt PX false).
Definition Y_nsqrt := gate_of (mk_pt PZ false) (mk_pt PX true).
Definition Z_sqrt := gate_of (mk_pt PY false) (mk_pt PZ false).
Definition Z_nsqrt := gate_of (mk_pt PY true) (mk_pt PZ false).

(** The 24 gates of [_all_clifford_gates()]. *)
Definition all_gates : list SingleQubitCliffordGate :=
  map (fun pr => gate_of (fst pr) (snd pr)) all_rotation_pairs.

Definition gate_eqb (g h : SingleQubitCliffordGate) : bool :=
  tableau_eqb (clifford_tableau g) (clifford_tableau h).

(** Modelled from the spec: [inverse()], the gate [u] with
    [g.then(u) == identity]. *)
Definition inverse (g : SingleQubitCliffordGate) : option SingleQubitCliffordGate :=
  find (fun u => tableau_eqb (tableau_then (clifford_tableau g) (clifford_tableau u))
                   (identity_tableau 1)) all_gates.

(** [k]-fold composition, starting from the identity. *)
Definition compose_pow (g : SingleQubitCliffordGate) (k : nat) : SingleQubitCliffordGate :=
  mk_sq (Nat.iter k (fun acc => tableau_then acc (clifford_tableau g)) (identity_tableau 1)).

(** Modelled from the spec: the integer powers of [CliffordGate.__pow__]:
    repeated composition, of the inverse for a negative exponent. *)
Definition pow_int (g : SingleQubitCliffordGate) (k : Z) : outcome SingleQubitCliffordGate :=
  if Z.leb 0 k then Ret (compose_pow g (Z.to_nat k))
  else match inverse g with
       | Some u => Ret (compose_pow u (Z.to_nat (- k)))
       | None => Raise "ValueError: It is not a valid Clifford tableau."
       end.

(** [_get_sqrt_map()]: the exponents [0.5] and [-0.5] of [X], [Y], [Z]. *)
Definition sqrt_map (e : Q) (g : SingleQubitCliffordGate) : option SingleQubitCliffordGate :=
  if Qeq_bool e (1 # 2) then
    if gate_eqb g X_gate then Some X_sqrt
    else if gate_eqb g Y_gate then Some Y_sqrt
    else if gate_eqb g Z_gate then Some Z_sqrt else None
  else if Qeq_bool e (-1 # 2) then
    if gate_eqb g X_gate then Some X_nsqrt
    else if gate_eqb g Y_gate then Some Y_nsqrt
    else if gate_eqb g Z_gate then Some Z_nsqrt else None
  else None.

(** [exponent == int(exponent)] *)
Definition is_integer (e : Q) : bool := Z.eqb (Qnum e mod Z.pos (Qden e)) 0.

(** Modelled from the spec: [SingleQubitCliffordGate.__pow__]: the square
    root map first, then the integer powers; any other exponent makes
    [__pow__] return [NotImplemented], which Python turns into a
    [TypeError]. *)
Definition pow (g : SingleQubitCliffordGate) (e : Q) : outcome SingleQubitCliffordGate :=
  match sqrt_map e g with
  | Some h => Ret h
  | None =>
      if is_integer e then pow_int g (Qnum e / Z.pos (Qden e))
      else Raise "TypeError: unsupported operand type(s) for ** or pow()"
  end.

(** ** Padding, multi-qubit Clifford gates and their action *)

(** The last position of [v] in [l] (numpy keeps the last of repeated
    fancy-index assignments). *)
Fixpoint last_index (l : list nat) (v : nat) : option nat :=
  match l with
  | [] => None
  | a :: l' =>
      match last_index l' v with
      | Some p => Some (S p)
      | None => if Nat.eqb a v then Some 0%nat else None
      end
  end.

(** The columns [axes] of an [m]-bit row receive the bits [b]; the other
    columns are 0. *)
Definition embed_bits (m : nat) (axes : list nat) (b : list bool) : list bool :=
  map (fun c => match last_index axes c with Some p => nth p b false | None => false end)
    (seq 0 m).

(** Modelled from the spec: [_pad_tableau(clifford_tableau,
    num_qubits_after_padding, axes)]: start from the identity tableau on [m]
    qubits and write the rows [axes ++ (m + axes)], columns [axes], of the X
    and Z blocks and the signs of those rows from [t]. *)
Definition pad_tableau (t : CliffordTableau) (m : nat) (axes : list nat)
  : outcome CliffordTableau :=
  if negb (Nat.eqb (List.length axes) (n t)) then
    Raise "ValueError: Input axes of padding should match with the number of qubits in the input tableau."
  else if Nat.ltb m (n t) then
    Raise "ValueError: The number of qubits in the input tableau should not be larger than num_qubits_after_padding."
  else
    let v_index := axes ++ map (fun a => (m + a)%nat) axes in
    let id := identity_tableau m in
    Ret (mk_tableau m
      (map (fun i => match last_index v_index i with
                     | Some p => nth p (rs t) false
                     | None => nth i (rs id) false end) (seq 0 (2 * m)%nat))
      (map (fun i => match last_index v_index i with
                     | Some p => embed_bits m axes (nth p (xs t) [])
                     | None => nth i (xs id) [] end) (seq 0 (2 * m)%nat))
      (map (fun i => match last_index v_index i with
                     | Some p => embed_bits m axes (nth p (zs t) [])
                     | None => nth i (zs id) [] end) (seq 0 (2 * m)%nat))).

(** [CliffordGate], backed by an N-qubit tableau. *)
Record CliffordGate := mk_clifford_gate { gate_tableau : CliffordTableau }.

(** Modelled from the spec: [CliffordGate.from_clifford_tableau]. *)
Definition clifford_gate_from_clifford_tableau (t : CliffordTableau) : outcome CliffordGate :=
  if validate t then Ret (mk_clifford_gate t)
  else Raise "ValueError: It is not a valid Clifford tableau.".

(** An operation on the qubits [op_qubits]; [op_tableau] is its tableau when
    it has a stabilizer effect. *)
Record Operation := mk_operation {
  op_tableau : option CliffordTableau;
  op_qubits : list nat;
}.

(** [ActOnCliffordTableauArgs]: the simulation tableau and its qubit order. *)
Record ActOnCliffordTableauArgs := mk_tableau_args {
  tableau : CliffordTableau;
  qubits : list nat;
}.

Fixpoint find_index (l : list nat) (q : nat) : option nat :=
  match l with
  | [] => None
  | a :: l' => if Nat.eqb a q then Some 0%nat else option_map S (find_index l' q)
  end.

(** [args.get_axes(qubits)]: the positions of the qubits in [args.qubits]. *)
Fixpoint get_axes (args_qubits : list nat) (qs : list nat) : outcome (list nat) :=
  match qs with
  | [] => Ret []
  | q :: qs' =>
      match find_index args_qubits q with
      | None => Raise "KeyError"
      | Some a =>
          match get_axes args_qubits qs' with
          | Ret l => Ret (a :: l)
          | Raise msg => Raise msg
          end
      end
  end.

(** Modelled from the spec: [CliffordGate._act_on_] on a tableau simulation
    state: the gate's tableau, padded to the state's qubits at the operation's
    axes, is composed after the state's tableau. *)
Definition act_on_clifford (g : CliffordTableau) (args : ActOnCliffordTableauArgs)
  (qs : list nat) : outcome ActOnCliffordTableauArgs :=
  match get_axes (qubits args) qs with
  | Raise msg => Raise msg
  | Ret axes =>
      match pad_tableau g (List.length (qubits args)) axes with
      | Raise msg => Raise msg
      | Ret padded => Ret (mk_tableau_args (tableau_then (tableau args) padded) (qubits args))
      end
  end.

(** [protocols.act_on(op, args)] for an operation on a tableau state. *)
Definition act_on_operation (args : ActOnCliffordTableauArgs) (op : Operation)
  : outcome ActOnCliffordTableauArgs :=
  match op_tableau op with
  | Some g => act_on_clifford g args (op_qubits op)
  | None => Raise "TypeError: Can't simulate operations that don't implement SupportsUnitary, SupportsConsistentApplyUnitary, SupportsMixture or is a measurement"
  end.

(** The operations applied one by one. *)
Fixpoint act_on_operations (args : ActOnCliffordTableauArgs) (ops : list Operation)
  : outcome ActOnCliffordTableauArgs :=
  match ops with
  | [] => Ret args
  | op :: ops' =>
      match act_on_operation args op with
      | Raise msg => Raise msg
      | Ret args' => act_on_operations args' ops'
      end
  end.

Definition has_stabilizer_effect (op : Operation) : bool :=
  match op_tableau op with Some _ => true | None => false end.

(** Modelled from the spec: [CliffordGate.from_op_list(operations,
    qubit_order)]: every operation must have a stabilizer effect; they act in
    order on the identity tableau over [qubit_order], and the result is
    wrapped by [from_clifford_tableau]. *)
Definition from_op_list (ops : list Operation) (qubit_order : list nat) : outcome CliffordGate :=
  if forallb has_stabilizer_effect ops then
    match act_on_operations
            (mk_tableau_args (identity_tableau (List.length qubit_order)) qubit_order) ops with
    | Raise msg => Raise msg
    | Ret args => clifford_gate_from_clifford_tableau (tableau args)
    end
  else Raise "ValueError: Clifford Gate can only be constructed from the operations that has stabilizer effect.".

(** Dimensions of an [m]-qubit tableau. *)
Definition wf_tableau (m : nat) (t : CliffordTableau) : Prop :=
  n t = m /\
  List.length (rs t) = (2 * m)%nat /\
  List.length (xs t) = (2 * m)%nat /\ List.length (zs t) = (2 * m)%nat /\
  Forall (fun r => List.length r = m) (xs t) /\ Forall (fun r => List.length r = m) (zs t).

(** ** Auxiliary notions for the group of Pauli strings *)

(** A Pauli string on [m] qubits with its phase reduced modulo 4. *)
Definition ps_ok (m : nat) (a : pauli_string) : Prop :=
  List.length (xbits a) = m /\ List.length (zbits a) = m /\ 0 <= phase a < 4.

Definition ident (m : nat) : pauli_string := mk_ps 0 (zeros m) (zeros m).

(** Multiplication by the scalar [i^k]. *)
Definition shift (k : Z) (a : pauli_string) : pauli_string :=
  mk_ps ((k + phase a) mod 4) (xbits a) (zbits a).

(** [prod m rs e]: the product, in order, of the strings [rs] selected by [e]. *)
Fixpoint prod (m : nat) (rs : list pauli_string) (e : list bool) : pauli_string :=
  match rs, e with
  | r :: rs', b :: e' => if b then ps_mul r (prod m rs' e') else prod m rs' e'
  | _, _ => ident m
  end.

(** Anticommutations of [r] with the selected strings. *)
Fixpoint cnt (rs : list pauli_string) (e : list bool) (r : pauli_string) : Z :=
  match rs, e with
  | s :: rs', b :: e' => (if b then symplectic s r else 0) + cnt rs' e' r
  | _, _ => 0
  end.

(** The sign collected when two selected products are merged. *)
Fixpoint sigma (rs : list pauli_string) (e f : list bool) : Z :=
  match rs, e, f with
  | r :: rs', _ :: e', b' :: f' => (if b' then cnt rs' e' r else 0) + sigma rs' e' f'
  | _, _, _ => 0
  end.

Fixpoint zsum (l : list nat) (h : nat -> Z) : Z :=
  match l with [] => 0 | c :: l' => h c + zsum l' h end.

(** ** Auxiliary notions for [from_op_list] *)

(** [and3_count a b c]: the columns where all three bits are set. *)
Fixpoint and3_count (a b c : list bool) : Z :=
  match a, b, c with
  | x :: a', y :: b', z :: c' => (if x && y && z then 1 else 0) + and3_count a' b' c'
  | _, _, _ => 0
  end.

(** [a] squares to the identity: a Hermitian Pauli string. *)
Definition hermitian (m : nat) (a : pauli_string) : Prop := ps_mul a a = ident m.

(** The generators [X_0 .. X_(m-1), Z_0 .. Z_(m-1)] as a list. *)
Definition generators (m : nat) : list pauli_string := map (generator m) (seq 0 (2 * m)%nat).

(** The tableau [pad_tableau t m axes] returns when its two checks pass. *)
Definition padded (t : CliffordTableau) (m : nat) (axes : list nat) : CliffordTableau :=
  let v_index := axes ++ map (fun a => (m + a)%nat) axes in
  let id := identity_tableau m in
  mk_tableau m
    (map (fun i => match last_index v_index i with
                   | Some p => nth p (rs t) false
                   | None => nth i (rs id) false end) (seq 0 (2 * m)%nat))
    (map (fun i => match last_index v_index i with
                   | Some p => embed_bits m axes (nth p (xs t) [])
                   | None => nth i (xs id) [] end) (seq 0 (2 * m)%nat))
    (map (fun i => match last_index v_index i with
                   | Some p => embed_bits m axes (nth p (zs t) [])
                   | None => nth i (zs id) [] end) (seq 0 (2 * m)%nat)).

(** The rows of the padded tableau that receive the rows of [t]. *)
Definition v_index (m : nat) (axes : list nat) : list nat :=
  axes ++ map (fun a => (m + a)%nat) axes.

(** Row [i] of the padded tableau, up to its phase. *)
Definition pad_row (t : CliffordTableau) (m : nat) (axes : list nat) (i : nat) : pauli_string :=
  match last_index (v_index m axes) i with
  | Some p => mk_ps 0 (embed_bits m axes (xbits (row t p))) (embed_bits m axes (zbits (row t p)))
  | None => generator m i
  end.

(** The position of qubit [q] in [l] (0 when absent). *)
Definition axis_of (l : list nat) (q : nat) : nat :=
  match find_index l q with Some a => a | None => 0%nat end.

(** [op] is a Clifford operation on distinct qubits of [qs]: it has a valid
    tableau on as many qubits as it acts on. *)
Definition clifford_op_on (qs : list nat) (op : Operation) : Prop :=
  exists g, op_tableau op = Some g /\ wf_tableau (List.length (op_qubits op)) g /\
    validate g = true /\ NoDup (op_qubits op) /\ incl (op_qubits op) qs.

(** Hadamard and CZ tableaux, and the operations H(q7) CZ(q5, q7) H(q7), a CNOT. *)
Definition h_tableau : CliffordTableau :=
  mk_tableau 1 [false; false] [[false]; [true]] [[true]; [false]].

Definition cz_tableau : CliffordTableau :=
  mk_tableau 2 [false; false; false; false]
    [[true; false]; [false; true]; [false; false]; [false; false]]
    [[false; true]; [true; false]; [true; false]; [false; true]].

Definition cnot_ops : list Operation :=
  [mk_operation (Some h_tableau) [7%nat]; mk_operation (Some cz_tableau) [5%nat; 7%nat];
   mk_operation (Some h_tableau) [7%nat]].

(** ** Properties of the single-qubit gates *)

Lemma all_rotation_pairs_spec (tx tz : PauliTransform) :
  In (tx, tz) all_rotation_pairs <-> to tx <> to tz.
Proof.
  destruct tx as [[] []], tz as [[] []]; cbn; split;
    intuition congruence.
Qed.

(** C5: the 24 pairs [(trans_x, trans_z)] of distinct axes all give a gate
    through [from_xz_map]; their tableaux are pairwise distinct (also by the
    test's [tableau_number]), so deduplication leaves exactly 24 gates, and
    every one satisfies [xs[0] zs[1] + zs[0] xs[1] = 1 (mod 2)]. *)
Theorem from_xz_map_24_distinct_symplectic :
  (forall tx tz, In (tx, tz) all_rotation_pairs <-> to tx <> to tz) /\
  exists tabs : list CliffordTableau,
    map (fun pr => from_xz_map (fst pr) (snd pr)) all_rotation_pairs
      = map (fun t => Ret (mk_sq t)) tabs /\
    List.length (dedup tableau_eqb tabs) = 24%nat /\
    List.length (dedup Z.eqb (map tableau_number tabs)) = 24%nat /\
    Forall (fun t => single_qubit_symplectic t = 1) tabs.
Proof.
  split; [exact all_rotation_pairs_spec |].
  exists (map (fun pr => to_clifford_tableau (fst pr) (snd pr)) all_rotation_pairs).
  split; [vm_compute; reflexivity |].
  split; [vm_compute; reflexivity |].
  split; [vm_compute; reflexivity |].
  vm_compute; repeat constructor.
Qed.

(** C6: for [trans_x], [trans_z] of distinct axes, [from_xz_map] gives a gate
    whose [transform] gives back [trans_x] and [trans_z]; the images of [X],
    [Y], [Z] lie on three distinct axes and pass the test's right-handedness
    check (no mirror). *)
Theorem from_xz_map_round_trip (tx tz : PauliTransform) (Hd : to tx <> to tz) :
  exists g ty,
    from_xz_map tx tz = Ret g /\
    transform g PX = Some tx /\ transform g PZ = Some tz /\
    transform g PY = Some ty /\
    to tx <> to ty /\ to ty <> to tz /\ to tz <> to tx /\
    right_handed tx ty tz = true.
Proof.
  exists (gate_of tx tz).
  destruct tx as [[] []], tz as [[] []]; cbn in Hd;
    try (exfalso; apply Hd; reflexivity);
    vm_compute; eexists; repeat split; try reflexivity; discriminate.
Qed.

Lemma inverse_all_gates (g : SingleQubitCliffordGate) :
  In g all_gates ->
  exists u, inverse g = Some u /\
    tableau_then (clifford_tableau g) (clifford_tableau u) = identity_tableau 1 /\
    tableau_then (clifford_tableau u) (clifford_tableau g) = identity_tableau 1.
Proof.
  intros Hg.
  exists (match inverse g with Some u => u | None => g end).
  unfold all_gates in Hg; apply in_map_iff in Hg.
  destruct Hg as [[tx tz] [<- Hin]]; apply all_rotation_pairs_spec in Hin.
  destruct tx as [[] []], tz as [[] []]; cbn in Hin;
    try (exfalso; apply Hin; reflexivity);
    vm_compute; repeat split; reflexivity.
Qed.

Lemma compose_pow_one (u : SingleQubitCliffordGate) :
  In u all_gates -> compose_pow u 1 = u.
Proof.
  intros Hu; unfold all_gates in Hu; apply in_map_iff in Hu.
  destruct Hu as [[tx tz] [<- Hin]]; apply all_rotation_pairs_spec in Hin.
  destruct tx as [[] []], tz as [[] []]; cbn in Hin;
    try (exfalso; apply Hin; reflexivity);
    vm_compute; reflexivity.
Qed.

Lemma inverse_in_all_gates (g u : SingleQubitCliffordGate) :
  inverse g = Some u -> In u all_gates.
Proof. intros Hu; exact (proj1 (find_some _ _ Hu)). Qed.

Lemma Qeq_bool_int_half (z : Z) : Qeq_bool (z # 1) (1 # 2) = false.
Proof.
  destruct (Qeq_bool (z # 1) (1 # 2)) eqn:E; [| reflexivity].
  apply Qeq_bool_iff in E; unfold Qeq in E; simpl in E; lia.
Qed.

Lemma Qeq_bool_int_nhalf (z : Z) : Qeq_bool (z # 1) (-1 # 2) = false.
Proof.
  destruct (Qeq_bool (z # 1) (-1 # 2)) eqn:E; [| reflexivity].
  apply Qeq_bool_iff in E; unfold Qeq in E; simpl in E; lia.
Qed.

Lemma pow_int_exponent (g : SingleQubitCliffordGate) (z : Z) :
  pow g (z # 1) = pow_int g z.
Proof.
  unfold pow, sqrt_map; rewrite Qeq_bool_int_half, Qeq_bool_int_nhalf.
  unfold is_integer; cbn [Qnum Qden]; rewrite Z.mod_1_r, Z.div_1_r; reflexivity.
Qed.

(** C7, as the code has it: an integer exponent is repeated composition, of
    the inverse for a negative exponent ([g ** -1] is the inverse of [g], on
    both sides); the exponents [0.5] and [-0.5] of [X], [Y], [Z] give the
    square roots; every other non-integer exponent raises [TypeError]. *)
Theorem pow_integer_sqrt_and_type_error :
  (forall g, In g all_gates ->
     exists u, inverse g = Some u /\ pow g (-1) = Ret u /\
       tableau_then (clifford_tableau g) (clifford_tableau u) = identity_tableau 1 /\
       tableau_then (clifford_tableau u) (clifford_tableau g) = identity_tableau 1) /\
  (forall g (k : nat), pow g (Z.of_nat k # 1) = Ret (compose_pow g k)) /\
  (forall g (k : nat), In g all_gates -> (0 < k)%nat -> exists u, inverse g = Some u /\
     pow g (- Z.of_nat k # 1) = Ret (compose_pow u k)) /\
  pow X_gate (1 # 2) = Ret X_sqrt /\ pow Y_gate (1 # 2) = Ret Y_sqrt /\
  pow Z_gate (1 # 2) = Ret Z_sqrt /\ pow X_gate (-1 # 2) = Ret X_nsqrt /\
  pow Y_gate (-1 # 2) = Ret Y_nsqrt /\ pow Z_gate (-1 # 2) = Ret Z_nsqrt /\
  compose_pow X_sqrt 2 = X_gate /\ compose_pow Y_sqrt 2 = Y_gate /\
  compose_pow Z_sqrt 2 = Z_gate /\
  (forall g e, is_integer e = false -> sqrt_map e g = None ->
     pow g e = Raise "TypeError: unsupported operand type(s) for ** or pow()").
Proof.
  split.
  { intros g Hg; destruct (inverse_all_gates g Hg) as (u & Hu & H1 & H2).
    exists u; split; [exact Hu |]; split; [| split; assumption].
    change (-1)%Q with (-1 # 1)%Q; rewrite pow_int_exponent.
    unfold pow_int; simpl Z.leb; rewrite Hu; change (Z.to_nat (- (-1))) with 1%nat.
    rewrite (compose_pow_one u (inverse_in_all_gates g u Hu)); reflexivity. }
  split.
  { intros g k; rewrite pow_int_exponent; unfold pow_int.
    replace (Z.leb 0 (Z.of_nat k)) with true by (symmetry; apply Z.leb_le; lia).
    rewrite Nat2Z.id; reflexivity. }
  split.
  { intros g k Hg Hk; destruct (inverse_all_gates g Hg) as (u & Hu & _).
    exists u; split; [exact Hu |].
    rewrite pow_int_exponent; unfold pow_int.
    replace (Z.leb 0 (- Z.of_nat k)) with false by (symmetry; apply Z.leb_gt; lia).
    rewrite Hu, Z.opp_involutive, Nat2Z.id; reflexivity. }
  do 9 (split; [vm_compute; reflexivity |]).
  intros g e Hi Hs; unfold pow; rewrite Hs, Hi; reflexivity.
Qed.

(** C7 fails as stated: [0.5] is not an integer, yet [X ** 0.5] is the gate
    [X_sqrt] and raises nothing. *)
Lemma pow_half_no_type_error :
  is_integer (1 # 2) = false /\ pow X_gate (1 # 2) = Ret X_sqrt /\
  forall msg, pow X_gate (1 # 2) <> Raise msg.
Proof.
  split; [reflexivity |]; split; [vm_compute; reflexivity |].
  intros msg; vm_compute; discriminate.
Qed.

(** ** The group of Pauli strings and tableau composition *)

Lemma xor_bits_comm (a b : list bool) : xor_bits a b = xor_bits b a.
Proof.
  revert b; induction a as [| x a IH]; intros [| y b]; cbn; try reflexivity.
  rewrite IH, xorb_comm; reflexivity.
Qed.

Lemma xor_bits_assoc (a b c : list bool) :
  xor_bits (xor_bits a b) c = xor_bits a (xor_bits b c).
Proof.
  revert b c; induction a as [| x a IH]; intros [| y b] [| z c]; cbn; try reflexivity.
  rewrite IH, xorb_assoc; reflexivity.
Qed.

Lemma xor_bits_length (m : nat) (a b : list bool) :
  List.length a = m -> List.length b = m -> List.length (xor_bits a b) = m.
Proof.
  revert m b; induction a as [| x a IH]; intros m [| y b] Ha Hb; cbn in *; try lia.
  destruct m; [lia |]. f_equal; apply IH; lia.
Qed.

Lemma xor_bits_zeros_l (a : list bool) : xor_bits (zeros (List.length a)) a = a.
Proof. unfold zeros; induction a as [| x a IH]; cbn; [reflexivity | rewrite IH; reflexivity]. Qed.

Lemma xor_bits_zeros_r (a : list bool) : xor_bits a (zeros (List.length a)) = a.
Proof. rewrite xor_bits_comm; apply xor_bits_zeros_l. Qed.

Lemma xor_bits_zeros_l' (m : nat) (a : list bool) : List.length a = m -> xor_bits (zeros m) a = a.
Proof. intros <-; apply xor_bits_zeros_l. Qed.

Lemma xor_bits_zeros_r' (m : nat) (a : list bool) : List.length a = m -> xor_bits a (zeros m) = a.
Proof. intros <-; apply xor_bits_zeros_r. Qed.

Lemma xor_bits_self (a : list bool) : xor_bits a a = zeros (List.length a).
Proof. unfold zeros; induction a as [| x a IH]; cbn; [reflexivity | rewrite IH, xorb_nilpotent; reflexivity]. Qed.

Lemma zeros_length (m : nat) : List.length (zeros m) = m.
Proof. apply repeat_length. Qed.

Lemma and_count_comm (a b : list bool) : and_count a b = and_count b a.
Proof.
  revert b; induction a as [| x a IH]; intros [| y b]; cbn; try reflexivity.
  rewrite IH, andb_comm; reflexivity.
Qed.

Lemma and_count_zeros_l (m : nat) (b : list bool) : and_count (zeros m) b = 0.
Proof. unfold zeros; revert b; induction m as [| m IH]; intros [| y b]; cbn; try reflexivity; apply IH. Qed.

Lemma and_count_zeros_r (m : nat) (a : list bool) : and_count a (zeros m) = 0.
Proof. rewrite and_count_comm; apply and_count_zeros_l. Qed.

Lemma and_count_nonneg (a b : list bool) : 0 <= and_count a b.
Proof.
  revert b; induction a as [| x a IH]; intros [| y b]; cbn; try lia.
  specialize (IH b); destruct (x && y); lia.
Qed.


Lemma and_count_xor_l (a b c : list bool) :
  List.length a = List.length b ->
  and_count (xor_bits a b) c + 2 * and3_count a b c = and_count a c + and_count b c.
Proof.
  revert b c; induction a as [| x a IH]; intros [| y b] [| z c] Hl;
    cbn [xor_bits and_count and3_count List.length] in *; try lia.
  specialize (IH b c ltac:(lia)).
  destruct x, y, z; cbn [xorb andb] in *; lia.
Qed.

Lemma mod4_bound (x : Z) : 0 <= x mod 4 < 4.
Proof. apply Z.mod_pos_bound; lia. Qed.

Lemma ps_mul_ok (m : nat) (a b : pauli_string) :
  ps_ok m a -> ps_ok m b -> ps_ok m (ps_mul a b).
Proof.
  intros (Ha1 & Ha2 & _) (Hb1 & Hb2 & _); unfold ps_ok, ps_mul; cbn.
  split; [apply xor_bits_length; assumption |].
  split; [apply xor_bits_length; assumption |]. apply mod4_bound.
Qed.

Lemma ps_mul_assoc (m : nat) (a b c : pauli_string) :
  ps_ok m a -> ps_ok m b -> ps_ok m c ->
  ps_mul (ps_mul a b) c = ps_mul a (ps_mul b c).
Proof.
  destruct a as [pa xa za], b as [pb xb zb], c as [pc xc zc].
  intros (Ha1 & Ha2 & _) (Hb1 & Hb2 & _) (Hc1 & Hc2 & _); cbn [xbits zbits phase] in *.
  unfold ps_mul; cbn [xbits zbits phase]; f_equal; try apply xor_bits_assoc.
  pose proof (and_count_xor_l za zb xc ltac:(lia)) as E1.
  pose proof (and_count_xor_l xb xc za ltac:(lia)) as E2.
  rewrite (and_count_comm za (xor_bits xb xc)).
  rewrite (and_count_comm za xb), (and_count_comm za xc) in *.
  Z.div_mod_to_equations; lia.
Qed.

Lemma ident_ok (m : nat) : ps_ok m (ident m).
Proof. unfold ps_ok, ident; cbn; rewrite zeros_length; lia. Qed.

Lemma ps_mul_ident_l (m : nat) (a : pauli_string) : ps_ok m a -> ps_mul (ident m) a = a.
Proof.
  destruct a as [pa xa za]; intros (H1 & H2 & H3); cbn in *; unfold ps_mul, ident; cbn.
  rewrite and_count_zeros_l, (xor_bits_zeros_l' m xa H1), (xor_bits_zeros_l' m za H2).
  f_equal; rewrite Z.mod_small; lia.
Qed.

Lemma ps_mul_ident_r (m : nat) (a : pauli_string) : ps_ok m a -> ps_mul a (ident m) = a.
Proof.
  destruct a as [pa xa za]; intros (H1 & H2 & H3); cbn in *; unfold ps_mul, ident; cbn.
  rewrite and_count_zeros_r, (xor_bits_zeros_r' m xa H1), (xor_bits_zeros_r' m za H2).
  f_equal; rewrite Z.mod_small; lia.
Qed.

Lemma shift_ok (m : nat) (k : Z) (a : pauli_string) : ps_ok m a -> ps_ok m (shift k a).
Proof. intros (H1 & H2 & _); unfold ps_ok, shift; cbn; repeat split; try assumption; apply mod4_bound. Qed.

Lemma shift_zero (m : nat) (a : pauli_string) : ps_ok m a -> shift 0 a = a.
Proof. destruct a; intros (_ & _ & H); unfold shift; cbn in *; f_equal; rewrite Z.mod_small; lia. Qed.

Lemma shift_shift (k l : Z) (a : pauli_string) : shift k (shift l a) = shift (k + l) a.
Proof. destruct a; unfold shift; cbn; f_equal; Z.div_mod_to_equations; lia. Qed.

Lemma shift_mod (k : Z) (a : pauli_string) : shift (k mod 4) a = shift k a.
Proof. destruct a; unfold shift; cbn; f_equal; Z.div_mod_to_equations; lia. Qed.

Lemma shift_ext (k l : Z) (a : pauli_string) : k mod 4 = l mod 4 -> shift k a = shift l a.
Proof. intros H; rewrite <- (shift_mod k), <- (shift_mod l), H; reflexivity. Qed.

Lemma ps_mul_shift_l (k : Z) (a b : pauli_string) :
  ps_mul (shift k a) b = shift k (ps_mul a b).
Proof. destruct a, b; unfold shift, ps_mul; cbn; f_equal; Z.div_mod_to_equations; lia. Qed.

Lemma ps_mul_shift_r (k : Z) (a b : pauli_string) :
  ps_mul a (shift k b) = shift k (ps_mul a b).
Proof. destruct a, b; unfold shift, ps_mul; cbn; f_equal; Z.div_mod_to_equations; lia. Qed.

(** Two Pauli strings commute up to the sign [(-1)^(symplectic a b)]. *)
Lemma ps_mul_comm (m : nat) (a b : pauli_string) :
  ps_ok m a -> ps_ok m b ->
  ps_mul a b = shift (2 * symplectic a b) (ps_mul b a).
Proof.
  destruct a as [pa xa za], b as [pb xb zb]; intros _ _.
  unfold shift, ps_mul, symplectic; cbn [phase xbits zbits]; f_equal; [| apply xor_bits_comm ..].
  rewrite (and_count_comm xa zb). Z.div_mod_to_equations; lia.
Qed.

Lemma shift_cancel (m : nat) (k l : Z) (a : pauli_string) :
  shift k a = shift l a -> k mod 4 = l mod 4.
Proof. destruct a; unfold shift; cbn; intros H; injection H; intros; Z.div_mod_to_equations; lia. Qed.

Lemma symplectic_range (a b : pauli_string) : 0 <= symplectic a b < 2.
Proof. unfold symplectic; apply Z.mod_pos_bound; lia. Qed.


Lemma hermitian_row_form (m : nat) (r : bool) (x z : list bool) :
  List.length x = m -> List.length z = m ->
  hermitian m (mk_ps ((2 * Z.b2z r + and_count x z) mod 4) x z).
Proof.
  intros Hx Hz; unfold hermitian, ps_mul, ident; cbn [phase xbits zbits].
  rewrite !xor_bits_self, Hx, Hz, (and_count_comm z x); f_equal.
  Z.div_mod_to_equations; lia.
Qed.

Lemma prod_ok (m : nat) (rs : list pauli_string) (e : list bool) :
  Forall (ps_ok m) rs -> ps_ok m (prod m rs e).
Proof.
  intros H; revert e; induction H as [| r rs Hr Hrs IH]; intros [| b e]; cbn;
    try apply ident_ok.
  destruct b; [apply ps_mul_ok |]; auto.
Qed.

Create HintDb ps.
#[local] Hint Resolve ps_mul_ok shift_ok ident_ok prod_ok : ps.

Lemma fold_left_prod (m : nat) (rs : list pauli_string) (e : list bool) (acc : pauli_string) :
  Forall (ps_ok m) rs -> ps_ok m acc ->
  fold_left (fun acc (ge : pauli_string * bool) => if snd ge then ps_mul acc (fst ge) else acc)
    (combine rs e) acc = ps_mul acc (prod m rs e).
Proof.
  intros H; revert e acc; induction H as [| r rs Hr Hrs IH]; intros [| b e] acc Hacc; cbn;
    try (symmetry; apply (ps_mul_ident_r m); assumption).
  destruct b; cbn.
  - rewrite IH by auto with ps. apply (ps_mul_assoc m); auto with ps.
  - apply IH; assumption.
Qed.

Lemma prod_move (m : nat) (rs : list pauli_string) (e : list bool) (r : pauli_string) :
  Forall (ps_ok m) rs -> ps_ok m r ->
  ps_mul (prod m rs e) r = shift (2 * cnt rs e r) (ps_mul r (prod m rs e)).
Proof.
  intros H Hr; revert e; induction H as [| s rs Hs Hrs IH]; intros [| b e]; cbn [prod cnt];
    try (rewrite (ps_mul_ident_l m), (ps_mul_ident_r m), shift_zero with (m := m); auto; fail).
  destruct b.
  - rewrite (ps_mul_assoc m), IH, ps_mul_shift_r by auto with ps.
    rewrite <- (ps_mul_assoc m s r) by auto with ps.
    rewrite (ps_mul_comm m s r), ps_mul_shift_l, shift_shift by auto with ps.
    rewrite (ps_mul_assoc m r s) by auto with ps.
    apply shift_ext; Z.div_mod_to_equations; lia.
  - rewrite IH; apply shift_ext; Z.div_mod_to_equations; lia.
Qed.

Lemma prod_merge (m : nat) (rs : list pauli_string) (e f : list bool) :
  Forall (ps_ok m) rs -> Forall (hermitian m) rs ->
  List.length e = List.length rs -> List.length f = List.length rs ->
  ps_mul (prod m rs e) (prod m rs f) = shift (2 * sigma rs e f) (prod m rs (xor_bits e f)).
Proof.
  intros H Hh; revert e f; induction H as [| r rs Hr Hrs IH]; intros e f He Hf.
  - destruct e, f; cbn in *; try lia.
    rewrite (ps_mul_ident_l m), shift_zero with (m := m); auto with ps.
  - inversion Hh as [| ? ? Hhr Hhrs]; subst.
    destruct e as [| b e], f as [| b' f]; cbn in He, Hf; try lia.
    specialize (IH Hhrs e f ltac:(lia) ltac:(lia)).
    cbn [prod sigma xor_bits].
    destruct b, b'; cbn [xorb].
    + rewrite (ps_mul_assoc m r), <- (ps_mul_assoc m (prod m rs e) r) by auto with ps.
      rewrite (prod_move m rs e r), ps_mul_shift_l, ps_mul_shift_r by auto with ps.
      rewrite (ps_mul_assoc m r), <- (ps_mul_assoc m r r) by auto with ps.
      unfold hermitian in Hhr; rewrite Hhr, (ps_mul_ident_l m), IH, shift_shift by auto with ps.
      apply shift_ext; Z.div_mod_to_equations; lia.
    + rewrite (ps_mul_assoc m r), IH, ps_mul_shift_r by auto with ps.
      apply shift_ext; Z.div_mod_to_equations; lia.
    + rewrite <- (ps_mul_assoc m (prod m rs e) r), (prod_move m rs e r) by auto with ps.
      rewrite ps_mul_shift_l, (ps_mul_assoc m r), IH, ps_mul_shift_r, shift_shift by auto with ps.
      apply shift_ext; Z.div_mod_to_equations; lia.
    + rewrite IH; apply shift_ext; Z.div_mod_to_equations; lia.
Qed.

Lemma map_nth_seq {A} (l : list A) (d : A) :
  map (fun i => nth i l d) (seq 0 (List.length l)) = l.
Proof.
  apply (nth_ext _ _ d d); [rewrite length_map, length_seq; reflexivity |].
  intros i Hi; rewrite length_map, length_seq in Hi.
  rewrite (nth_indep _ d (nth 0 l d)) by (rewrite length_map, length_seq; assumption).
  rewrite (map_nth (fun i => nth i l d) (seq 0 (List.length l)) 0%nat i), seq_nth by assumption.
  reflexivity.
Qed.

Lemma map_false (l : list nat) : map (fun _ => false) l = repeat false (List.length l).
Proof. induction l as [| c l IH]; cbn; [reflexivity | rewrite IH; reflexivity]. Qed.

Lemma zeros_as_map (m : nat) : zeros m = map (fun _ => false) (seq 0 m).
Proof. rewrite map_false, length_seq; reflexivity. Qed.

Lemma xor_bits_map (f g : nat -> bool) (l : list nat) :
  xor_bits (map f l) (map g l) = map (fun c => xorb (f c) (g c)) l.
Proof. induction l as [| c l IH]; cbn; [reflexivity | rewrite IH; reflexivity]. Qed.

Lemma and_count_map_false (f g : nat -> bool) (l : list nat) :
  (forall c, In c l -> g c = false) -> and_count (map f l) (map g l) = 0.
Proof.
  induction l as [| c l IH]; intros H; cbn; [reflexivity |].
  rewrite H by (left; reflexivity).
  rewrite andb_false_r, IH by (intros; apply H; right; assumption).
  reflexivity.
Qed.

Lemma prod_generators (m s : nat) (bits : list bool) :
  prod m (map (generator m) (seq s (List.length bits))) bits =
  mk_ps 0
    (map (fun c => Nat.leb s c && nth (c - s) bits false) (seq 0 m))
    (map (fun c => Nat.leb s (m + c) && nth (m + c - s) bits false) (seq 0 m)).
Proof.
  revert s; induction bits as [| b bits IH]; intros s; cbn [List.length seq map prod].
  - unfold ident; rewrite !zeros_as_map; f_equal; apply map_ext; intros c;
      destruct (_ - _)%nat; symmetry; apply andb_false_r.
  - rewrite IH.
    assert (HX : forall c, (Nat.leb s c && nth (c - s) (b :: bits) false) =
                           if Nat.eqb c s then b
                           else Nat.leb (S s) c && nth (c - S s) bits false).
    { intros c; destruct (Nat.eqb_spec c s) as [-> | Hne].
      - rewrite Nat.leb_refl, Nat.sub_diag; reflexivity.
      - destruct (Nat.leb_spec s c), (Nat.leb_spec (S s) c); try lia; cbn; try reflexivity.
        replace (c - s)%nat with (S (c - S s)) by lia; reflexivity. }
    assert (HZ : forall c, (Nat.leb s (m + c) && nth (m + c - s) (b :: bits) false) =
                           if Nat.eqb (m + c) s then b
                           else Nat.leb (S s) (m + c) && nth (m + c - S s) bits false).
    { intros c; destruct (Nat.eqb_spec (m + c) s) as [<- | Hne].
      - rewrite Nat.leb_refl, Nat.sub_diag; reflexivity.
      - destruct (Nat.leb_spec s (m + c)), (Nat.leb_spec (S s) (m + c)); try lia; cbn;
          try reflexivity.
        replace (m + c - s)%nat with (S (m + c - S s)) by lia; reflexivity. }
    destruct b.
    + unfold generator, ps_mul; cbn [phase xbits zbits].
      destruct (Nat.ltb_spec s m) as [Hs | Hs]; cbn [phase xbits zbits].
      * rewrite and_count_zeros_l.
        unfold unit_bits; rewrite !zeros_as_map, !xor_bits_map.
        f_equal; apply map_ext_in; intros c Hc; apply in_seq in Hc.
        -- rewrite HX; destruct (Nat.eqb_spec c s) as [-> | Hne].
           ++ destruct (Nat.leb_spec (S s) s); [lia | reflexivity].
           ++ reflexivity.
        -- rewrite HZ; destruct (Nat.eqb_spec (m + c) s); [lia | reflexivity].
      * unfold unit_bits; rewrite !zeros_as_map, !xor_bits_map.
        rewrite and_count_map_false
          by (intros c Hc; apply in_seq in Hc;
              destruct (Nat.leb_spec (S s) c); [lia | reflexivity]).
        f_equal; apply map_ext_in; intros c Hc; apply in_seq in Hc.
        -- rewrite HX; destruct (Nat.eqb_spec c s); [lia |].
           destruct (Nat.leb_spec (S s) c); [lia | reflexivity].
        -- rewrite HZ; destruct (Nat.eqb_spec (m + c) s) as [<- | Hne].
           ++ replace (m + c - m)%nat with c by lia; rewrite Nat.eqb_refl.
              destruct (Nat.leb_spec (S (m + c)) (m + c)); [lia | reflexivity].
           ++ replace (Nat.eqb c (s - m)) with false
                by (symmetry; apply Nat.eqb_neq; lia); reflexivity.
    + f_equal; apply map_ext; intros c; [rewrite HX | rewrite HZ].
      * destruct (Nat.eqb_spec c s) as [-> | Hne]; [| reflexivity].
        destruct (Nat.leb_spec (S s) s); [lia | reflexivity].
      * destruct (Nat.eqb_spec (m + c) s) as [<- | Hne]; [| reflexivity].
        destruct (Nat.leb_spec (S (m + c)) (m + c)); [lia | reflexivity].
Qed.


Lemma prod_generators_xz (m : nat) (x z : list bool) :
  List.length x = m -> List.length z = m ->
  prod m (generators m) (x ++ z) = mk_ps 0 x z.
Proof.
  intros Hx Hz; unfold generators.
  replace (2 * m)%nat with (List.length (x ++ z)) by (rewrite length_app; lia).
  rewrite prod_generators; f_equal.
  - transitivity (map (fun i => nth i x false) (seq 0 (List.length x)));
      [rewrite Hx | apply map_nth_seq].
    apply map_ext_in; intros c Hc; apply in_seq in Hc.
    rewrite Nat.sub_0_r, app_nth1 by lia; reflexivity.
  - transitivity (map (fun i => nth i z false) (seq 0 (List.length z)));
      [rewrite Hz | apply map_nth_seq].
    apply map_ext_in; intros c Hc; apply in_seq in Hc.
    rewrite Nat.sub_0_r, app_nth2 by lia.
    replace (m + c - List.length x)%nat with c by lia; reflexivity.
Qed.

Lemma nth_map_seq {A} (f : nat -> A) (k i : nat) (d : A) :
  (i < k)%nat -> nth i (map f (seq 0 k)) d = f i.
Proof.
  intros Hi; rewrite (nth_indep _ d (f 0%nat)) by (rewrite length_map, length_seq; assumption).
  rewrite map_nth, seq_nth by assumption; reflexivity.
Qed.

Lemma nth_length_default (m i : nat) (l : list (list bool)) :
  Forall (fun r => List.length r = m) l -> List.length (nth i l (zeros m)) = m.
Proof.
  intros H; destruct (Nat.lt_ge_cases i (List.length l)) as [Hi | Hi].
  - rewrite Forall_forall in H; apply H, nth_In, Hi.
  - rewrite nth_overflow by assumption; apply zeros_length.
Qed.

Lemma row_ok (m : nat) (t : CliffordTableau) (i : nat) :
  wf_tableau m t -> ps_ok m (row t i).
Proof.
  intros (Hn & _ & _ & _ & Hxs & Hzs); unfold row, ps_ok; cbn [xbits zbits phase]; rewrite Hn.
  split; [apply nth_length_default; assumption |].
  split; [apply nth_length_default; assumption |]. apply mod4_bound.
Qed.

Lemma row_hermitian (m : nat) (t : CliffordTableau) (i : nat) :
  wf_tableau m t -> hermitian m (row t i).
Proof.
  intros (Hn & _ & _ & _ & Hxs & Hzs); unfold row; rewrite Hn.
  apply hermitian_row_form; apply nth_length_default; assumption.
Qed.

Lemma rows_ok (m : nat) (t : CliffordTableau) (k : nat) :
  wf_tableau m t -> Forall (ps_ok m) (map (row t) (seq 0 k)).
Proof. intros H; apply Forall_map, Forall_forall; intros; apply row_ok; assumption. Qed.

Lemma rows_hermitian (m : nat) (t : CliffordTableau) (k : nat) :
  wf_tableau m t -> Forall (hermitian m) (map (row t) (seq 0 k)).
Proof. intros H; apply Forall_map, Forall_forall; intros; apply row_hermitian; assumption. Qed.

Lemma generator_ok (m i : nat) : ps_ok m (generator m i).
Proof.
  unfold generator, ps_ok, unit_bits; destruct (Nat.ltb i m); cbn [xbits zbits phase];
    rewrite ?length_map, ?length_seq, ?zeros_length; lia.
Qed.

Lemma generator_hermitian (m i : nat) : hermitian m (generator m i).
Proof.
  unfold hermitian, generator, ps_mul, ident, unit_bits; destruct (Nat.ltb i m);
    cbn [xbits zbits phase]; rewrite !xor_bits_self, ?length_map, ?length_seq, ?zeros_length;
    [rewrite and_count_zeros_l | rewrite and_count_zeros_r]; reflexivity.
Qed.

Lemma generators_ok (m : nat) : Forall (ps_ok m) (generators m).
Proof. apply Forall_map, Forall_forall; intros; apply generator_ok. Qed.

Lemma generators_hermitian (m : nat) : Forall (hermitian m) (generators m).
Proof. apply Forall_map, Forall_forall; intros; apply generator_hermitian. Qed.

Lemma ps_mul_scalar (m : nat) (k : Z) (a : pauli_string) :
  ps_ok m a -> ps_mul (mk_ps k (zeros m) (zeros m)) a = shift k a.
Proof.
  destruct a as [p x z]; intros (Hx & Hz & _); cbn in Hx, Hz.
  unfold ps_mul, shift; cbn [phase xbits zbits].
  rewrite and_count_zeros_l, (xor_bits_zeros_l' m x Hx), (xor_bits_zeros_l' m z Hz).
  f_equal; Z.div_mod_to_equations; lia.
Qed.

Lemma apply_tableau_prod (m : nat) (t : CliffordTableau) (a : pauli_string) :
  wf_tableau m t -> ps_ok m a ->
  apply_tableau t a = shift (phase a) (prod m (map (row t) (seq 0 (2 * m)%nat)) (xbits a ++ zbits a)).
Proof.
  intros Ht Ha; pose proof Ht as (Hn & _); unfold apply_tableau; rewrite Hn.
  assert (H0 : ps_ok m (mk_ps (phase a mod 4) (zeros m) (zeros m)))
    by (unfold ps_ok; cbn [xbits zbits phase]; rewrite zeros_length; pose proof (mod4_bound (phase a)); lia).
  rewrite (fold_left_prod m) by (try apply rows_ok; assumption).
  rewrite (ps_mul_scalar m) by (apply prod_ok, rows_ok, Ht).
  apply shift_mod.
Qed.

Lemma validate_spec (t : CliffordTableau) :
  validate t = true ->
  forall i j, (i < 2 * n t)%nat -> (j < 2 * n t)%nat ->
  symplectic (row t i) (row t j) = symplectic (generator (n t) i) (generator (n t) j).
Proof.
  unfold validate; intros H i j Hi Hj.
  rewrite forallb_forall in H; specialize (H i (proj2 (in_seq (2 * n t) 0 i) ltac:(lia))).
  rewrite forallb_forall in H; specialize (H j (proj2 (in_seq (2 * n t) 0 j) ltac:(lia))).
  apply Z.eqb_eq, H.
Qed.

Lemma cnt_same (rs gs : list pauli_string) (r g : pauli_string) (e : list bool) (d : pauli_string) :
  List.length rs = List.length gs ->
  (forall i, (i < List.length rs)%nat -> symplectic (nth i rs d) r = symplectic (nth i gs d) g) ->
  cnt rs e r = cnt gs e g.
Proof.
  revert gs e; induction rs as [| s rs IH]; intros [| s' gs] [| b e] Hl H; cbn in *; try lia.
  f_equal.
  - destruct b; [apply (H 0%nat); lia | reflexivity].
  - apply IH; [lia |]. intros i Hi; apply (H (S i)); lia.
Qed.

Lemma sigma_same (rs gs : list pauli_string) (e f : list bool) (d : pauli_string) :
  List.length rs = List.length gs ->
  (forall i j, (i < List.length rs)%nat -> (j < List.length rs)%nat ->
     symplectic (nth i rs d) (nth j rs d) = symplectic (nth i gs d) (nth j gs d)) ->
  sigma rs e f = sigma gs e f.
Proof.
  revert gs e f; induction rs as [| r rs IH]; intros [| g gs] [| b e] [| b' f] Hl H;
    cbn in *; try lia.
  f_equal.
  - destruct b'; [| reflexivity].
    apply (cnt_same rs gs r g e d); [lia |].
    intros i Hi; apply (H (S i) 0%nat); lia.
  - apply IH; [lia |]. intros i j Hi Hj; apply (H (S i) (S j)); lia.
Qed.

Lemma xor_bits_app (a1 a2 b1 b2 : list bool) :
  List.length a1 = List.length b1 ->
  xor_bits (a1 ++ a2) (b1 ++ b2) = xor_bits a1 b1 ++ xor_bits a2 b2.
Proof.
  revert b1; induction a1 as [| x a1 IH]; intros [| y b1] Hl; cbn in *; try lia;
    [reflexivity |]. rewrite IH by lia; reflexivity.
Qed.

(** A tableau satisfying the symplectic invariant maps products to products. *)
Lemma apply_tableau_mul (m : nat) (t : CliffordTableau) (a b : pauli_string) :
  wf_tableau m t -> validate t = true -> ps_ok m a -> ps_ok m b ->
  apply_tableau t (ps_mul a b) = ps_mul (apply_tableau t a) (apply_tableau t b).
Proof.
  intros Ht Hv Ha Hb; pose proof Ht as (Hn & _).
  destruct a as [pa xa za], b as [pb xb zb].
  pose proof Ha as (Hxa & Hza & _); pose proof Hb as (Hxb & Hzb & _); cbn in Hxa, Hza, Hxb, Hzb.
  rewrite !(apply_tableau_prod m) by (auto using ps_mul_ok).
  rewrite ps_mul_shift_l, ps_mul_shift_r, shift_shift.
  set (R := map (row t) (seq 0 (2 * m)%nat)).
  assert (HR : List.length R = (2 * m)%nat) by (unfold R; rewrite length_map, length_seq; reflexivity).
  rewrite (prod_merge m R) by (try apply rows_ok; try apply rows_hermitian; try assumption;
    cbn [xbits zbits]; rewrite HR, length_app; lia).
  rewrite shift_shift; unfold ps_mul; cbn [phase xbits zbits].
  rewrite <- xor_bits_app by lia.
  apply shift_ext.
  assert (Hs : sigma R (xa ++ za) (xb ++ zb) = sigma (generators m) (xa ++ za) (xb ++ zb)).
  { apply (sigma_same _ _ _ _ (ident m)).
    - unfold R, generators; rewrite !length_map; reflexivity.
    - intros i j Hi Hj; rewrite HR in Hi, Hj; unfold R, generators.
      rewrite !nth_map_seq by assumption.
      rewrite <- Hn; apply validate_spec; rewrite ?Hn; assumption. }
  assert (HG : List.length (generators m) = (2 * m)%nat)
    by (unfold generators; rewrite length_map, length_seq; reflexivity).
  pose proof (prod_merge m (generators m) (xa ++ za) (xb ++ zb) (generators_ok m)
    (generators_hermitian m) ltac:(rewrite HG, length_app; lia)
    ltac:(rewrite HG, length_app; lia)) as Hg.
  rewrite !prod_generators_xz in Hg by assumption.
  rewrite xor_bits_app in Hg by lia.
  rewrite prod_generators_xz in Hg by (apply xor_bits_length; assumption).
  unfold ps_mul, shift in Hg; cbn [phase xbits zbits] in Hg.
  apply (f_equal phase) in Hg; cbn [phase] in Hg.
  rewrite Hs. Z.div_mod_to_equations; lia.
Qed.

Lemma prod_false (m : nat) (rs : list pauli_string) (k : nat) :
  prod m rs (repeat false k) = ident m.
Proof.
  revert k; induction rs as [| r rs IH]; intros [| k]; cbn; try reflexivity; apply IH.
Qed.

Lemma apply_tableau_ok (m : nat) (t : CliffordTableau) (a : pauli_string) :
  wf_tableau m t -> ps_ok m a -> ps_ok m (apply_tableau t a).
Proof.
  intros Ht Ha; rewrite (apply_tableau_prod m) by assumption.
  apply shift_ok, prod_ok, rows_ok, Ht.
Qed.

Lemma apply_tableau_shift (m : nat) (t : CliffordTableau) (k : Z) (a : pauli_string) :
  wf_tableau m t -> ps_ok m a ->
  apply_tableau t (shift k a) = shift k (apply_tableau t a).
Proof.
  intros Ht Ha; rewrite !(apply_tableau_prod m) by (auto using shift_ok).
  destruct a; unfold shift; cbn [phase xbits zbits]; f_equal.
  Z.div_mod_to_equations; lia.
Qed.

Lemma apply_tableau_ident (m : nat) (t : CliffordTableau) :
  wf_tableau m t -> apply_tableau t (ident m) = ident m.
Proof.
  intros Ht; rewrite (apply_tableau_prod m) by (first [exact Ht | apply ident_ok]).
  unfold ident at 2 3; cbn [phase xbits zbits]; unfold zeros; rewrite <- repeat_app, prod_false.
  apply (shift_zero m), ident_ok.
Qed.

Lemma apply_tableau_hermitian (m : nat) (t : CliffordTableau) (a : pauli_string) :
  wf_tableau m t -> validate t = true -> ps_ok m a -> hermitian m a ->
  hermitian m (apply_tableau t a).
Proof.
  intros Ht Hv Ha Hh; unfold hermitian in *.
  rewrite <- (apply_tableau_mul m) by assumption.
  rewrite Hh; apply apply_tableau_ident, Ht.
Qed.

Lemma apply_tableau_symplectic (m : nat) (t : CliffordTableau) (a b : pauli_string) :
  wf_tableau m t -> validate t = true -> ps_ok m a -> ps_ok m b ->
  symplectic (apply_tableau t a) (apply_tableau t b) = symplectic a b.
Proof.
  intros Ht Hv Ha Hb.
  assert (Ha' := apply_tableau_ok m t a Ht Ha); assert (Hb' := apply_tableau_ok m t b Ht Hb).
  pose proof (ps_mul_comm m _ _ Ha' Hb') as E1.
  rewrite <- (apply_tableau_mul m) in E1 by assumption.
  rewrite (ps_mul_comm m a b), (apply_tableau_shift m), (apply_tableau_mul m) in E1
    by (auto using ps_mul_ok).
  apply (shift_cancel m) in E1.
  pose proof (symplectic_range a b); pose proof (symplectic_range (apply_tableau t a) (apply_tableau t b)).
  Z.div_mod_to_equations; lia.
Qed.

(** A Hermitian Pauli string is stored without loss as a sign bit and its
    bits. *)
Lemma row_form_hermitian (m : nat) (a : pauli_string) :
  ps_ok m a -> hermitian m a ->
  mk_ps ((2 * Z.b2z (sign_of a) + and_count (xbits a) (zbits a)) mod 4) (xbits a) (zbits a) = a.
Proof.
  destruct a as [p x z]; intros (_ & _ & Hp) Hh; unfold hermitian, ps_mul, ident in Hh.
  apply (f_equal phase) in Hh; cbn [phase xbits zbits] in *.
  rewrite (and_count_comm z x) in Hh.
  unfold sign_of; cbn [phase xbits zbits]; f_equal.
  destruct (Z.eqb_spec ((p - and_count x z) mod 4) 2); cbn [Z.b2z];
    Z.div_mod_to_equations; lia.
Qed.

Lemma row_tableau_of_rows (m : nat) (l : list pauli_string) (i : nat) :
  (i < List.length l)%nat -> ps_ok m (nth i l (ident m)) -> hermitian m (nth i l (ident m)) ->
  row (tableau_of_rows m l) i = nth i l (ident m).
Proof.
  intros Hi Hok Hh; unfold row, tableau_of_rows; cbn [n rs xs zs].
  rewrite (nth_indep (map xbits l) (zeros m) (xbits (ident m))) by (rewrite length_map; assumption).
  rewrite (nth_indep (map zbits l) (zeros m) (zbits (ident m))) by (rewrite length_map; assumption).
  rewrite (nth_indep (map sign_of l) false (sign_of (ident m))) by (rewrite length_map; assumption).
  rewrite !map_nth; apply (row_form_hermitian m); assumption.
Qed.

Lemma tableau_then_wf (m : nat) (t u : CliffordTableau) :
  wf_tableau m t -> wf_tableau m u -> wf_tableau m (tableau_then t u).
Proof.
  intros Ht Hu; pose proof Ht as (Hn & _).
  unfold tableau_then, tableau_of_rows, wf_tableau; cbn [n rs xs zs]; rewrite Hn.
  rewrite !length_map, length_seq.
  repeat split; try reflexivity; apply Forall_map, Forall_map, Forall_forall; intros i _;
    apply (apply_tableau_ok m u (row t i) Hu (row_ok m t i Ht)).
Qed.

Lemma row_tableau_then (m : nat) (t u : CliffordTableau) (i : nat) :
  wf_tableau m t -> wf_tableau m u -> validate u = true -> (i < 2 * m)%nat ->
  row (tableau_then t u) i = apply_tableau u (row t i).
Proof.
  intros Ht Hu Hv Hi; pose proof Ht as (Hn & _); unfold tableau_then; rewrite Hn.
  rewrite row_tableau_of_rows; rewrite ?length_map, ?length_seq, ?nth_map_seq by assumption;
    try assumption.
  - reflexivity.
  - apply apply_tableau_ok; [assumption | apply row_ok, Ht].
  - apply apply_tableau_hermitian; try assumption; [apply row_ok, Ht | apply row_hermitian, Ht].
Qed.

Lemma prod_map_apply (m : nat) (u : CliffordTableau) (rs : list pauli_string) (e : list bool) :
  wf_tableau m u -> validate u = true -> Forall (ps_ok m) rs ->
  prod m (map (apply_tableau u) rs) e = apply_tableau u (prod m rs e).
Proof.
  intros Hu Hv H; revert e; induction H as [| r rs Hr Hrs IH]; intros [| b e]; cbn [map prod];
    try (symmetry; apply apply_tableau_ident, Hu).
  destruct b; [| apply IH].
  rewrite (apply_tableau_mul m) by auto with ps. rewrite IH; reflexivity.
Qed.

Lemma apply_tableau_then (m : nat) (t u : CliffordTableau) (a : pauli_string) :
  wf_tableau m t -> wf_tableau m u -> validate u = true -> ps_ok m a ->
  apply_tableau (tableau_then t u) a = apply_tableau u (apply_tableau t a).
Proof.
  intros Ht Hu Hv Ha.
  rewrite (apply_tableau_prod m (tableau_then t u)) by (try apply tableau_then_wf; assumption).
  rewrite (apply_tableau_prod m t a) by assumption.
  rewrite (apply_tableau_shift m) by (first [exact Hu | apply prod_ok, rows_ok, Ht]).
  rewrite <- (prod_map_apply m) by (try apply rows_ok; assumption).
  f_equal; f_equal; rewrite map_map; apply map_ext_in; intros i Hi; apply in_seq in Hi.
  apply (row_tableau_then m); (assumption || lia).
Qed.

Lemma validate_intro (t : CliffordTableau) :
  (forall i j, (i < 2 * n t)%nat -> (j < 2 * n t)%nat ->
     symplectic (row t i) (row t j) = symplectic (generator (n t) i) (generator (n t) j)) ->
  validate t = true.
Proof.
  intros H; unfold validate; apply forallb_forall; intros i Hi; apply forallb_forall;
    intros j Hj; apply in_seq in Hi, Hj; apply Z.eqb_eq, H; lia.
Qed.

Lemma tableau_then_validate (m : nat) (t u : CliffordTableau) :
  wf_tableau m t -> validate t = true -> wf_tableau m u -> validate u = true ->
  validate (tableau_then t u) = true.
Proof.
  intros Ht Hvt Hu Hvu; pose proof Ht as (Hn & _).
  apply validate_intro; intros i j Hi Hj.
  assert (Hn' : n (tableau_then t u) = m) by (apply (tableau_then_wf m t u Ht Hu)).
  rewrite Hn' in *.
  rewrite !(row_tableau_then m) by assumption.
  rewrite (apply_tableau_symplectic m) by (try apply row_ok; assumption).
  rewrite <- Hn; apply validate_spec; rewrite ?Hn; assumption.
Qed.

(** [then] is associative when the later two tableaux are valid. *)
Lemma tableau_then_assoc (m : nat) (s t u : CliffordTableau) :
  wf_tableau m s -> wf_tableau m t -> validate t = true -> wf_tableau m u -> validate u = true ->
  tableau_then (tableau_then s t) u = tableau_then s (tableau_then t u).
Proof.
  intros Hs Ht Hvt Hu Hvu; pose proof Hs as (Hn & _).
  assert (Hn' : n (tableau_then s t) = m) by (apply (tableau_then_wf m s t Hs Ht)).
  unfold tableau_then at 1 3; rewrite Hn', Hn; f_equal.
  apply map_ext_in; intros i Hi; apply in_seq in Hi.
  rewrite (row_tableau_then m) by (assumption || lia).
  rewrite (apply_tableau_then m) by (try apply row_ok; assumption).
  reflexivity.
Qed.

Lemma identity_tableau_wf (m : nat) : wf_tableau m (identity_tableau m).
Proof.
  unfold identity_tableau, tableau_of_rows, wf_tableau; cbn [n rs xs zs].
  rewrite !length_map, length_seq.
  repeat split; try reflexivity; apply Forall_map, Forall_map, Forall_forall; intros i _;
    apply (generator_ok m i).
Qed.

Lemma row_identity_tableau (m i : nat) :
  (i < 2 * m)%nat -> row (identity_tableau m) i = generator m i.
Proof.
  intros Hi; unfold identity_tableau.
  rewrite row_tableau_of_rows.
  - rewrite nth_map_seq by assumption; reflexivity.
  - rewrite length_map, length_seq; assumption.
  - rewrite nth_map_seq by assumption; apply generator_ok.
  - rewrite nth_map_seq by assumption; apply generator_hermitian.
Qed.

Lemma identity_tableau_validate (m : nat) : validate (identity_tableau m) = true.
Proof.
  apply validate_intro; intros i j Hi Hj.
  assert (Hn : n (identity_tableau m) = m) by reflexivity; rewrite Hn in *.
  rewrite !row_identity_tableau by assumption; reflexivity.
Qed.

Lemma apply_identity_tableau (m : nat) (a : pauli_string) :
  ps_ok m a -> apply_tableau (identity_tableau m) a = a.
Proof.
  intros Ha; rewrite (apply_tableau_prod m) by (try apply identity_tableau_wf; assumption).
  replace (map (row (identity_tableau m)) (seq 0 (2 * m)%nat)) with (generators m)
    by (unfold generators; apply map_ext_in; intros i Hi; apply in_seq in Hi;
        symmetry; apply row_identity_tableau; lia).
  destruct a as [p x z]; pose proof Ha as (Hx & Hz & Hp); cbn [xbits zbits phase] in *.
  rewrite prod_generators_xz by assumption.
  unfold shift; cbn [phase xbits zbits]; f_equal; rewrite Z.add_0_r, Z.mod_small; lia.
Qed.

Lemma tableau_of_rows_row (m : nat) (s : CliffordTableau) :
  wf_tableau m s -> tableau_of_rows m (map (row s) (seq 0 (2 * m)%nat)) = s.
Proof.
  destruct s as [k rs0 xs0 zs0]; intros (Hn & Hrs & Hxs & Hzs & _); cbn [n rs xs zs] in *; subst k.
  unfold tableau_of_rows; rewrite !map_map; f_equal.
  - transitivity (map (fun i => nth i rs0 false) (seq 0 (List.length rs0)));
      [rewrite Hrs | apply map_nth_seq].
    apply map_ext; intros i.
    unfold sign_of, row; cbn [phase xbits zbits rs n].
    destruct (nth i rs0 false); cbn [Z.b2z]; apply Z.eqb_eq || apply Z.eqb_neq;
      Z.div_mod_to_equations; lia.
  - transitivity (map (fun i => nth i xs0 (zeros m)) (seq 0 (List.length xs0)));
      [rewrite Hxs; reflexivity | apply map_nth_seq].
  - transitivity (map (fun i => nth i zs0 (zeros m)) (seq 0 (List.length zs0)));
      [rewrite Hzs; reflexivity | apply map_nth_seq].
Qed.

Lemma tableau_then_identity (m : nat) (s : CliffordTableau) :
  wf_tableau m s -> tableau_then s (identity_tableau m) = s.
Proof.
  intros Hs; pose proof Hs as (Hn & _); unfold tableau_then; rewrite Hn.
  transitivity (tableau_of_rows m (map (row s) (seq 0 (2 * m)%nat)));
    [| apply tableau_of_rows_row, Hs].
  f_equal; apply map_ext; intros i; apply (apply_identity_tableau m), (row_ok m), Hs.
Qed.

(** ** Padding and [from_op_list] *)

Lemma zsum_ext (l : list nat) (f g : nat -> Z) :
  (forall c, In c l -> f c = g c) -> zsum l f = zsum l g.
Proof.
  induction l as [| c l IH]; intros H; cbn; [reflexivity |].
  rewrite (H c (or_introl eq_refl)), IH by (intros; apply H; right; assumption); reflexivity.
Qed.

Lemma zsum_zero (l : list nat) : zsum l (fun _ => 0) = 0.
Proof. induction l as [| c l IH]; cbn; [reflexivity | rewrite IH; reflexivity]. Qed.

Lemma zsum_add (l : list nat) (f g : nat -> Z) :
  zsum l (fun c => f c + g c) = zsum l f + zsum l g.
Proof. induction l as [| c l IH]; cbn; [reflexivity | rewrite IH; ring]. Qed.

Lemma zsum_swap (l1 l2 : list nat) (h : nat -> nat -> Z) :
  zsum l1 (fun a => zsum l2 (h a)) = zsum l2 (fun b => zsum l1 (fun a => h a b)).
Proof.
  induction l1 as [| a l1 IH]; cbn.
  - symmetry; apply zsum_zero.
  - rewrite IH, <- zsum_add; reflexivity.
Qed.

Lemma zsum_map (l : list nat) (f : nat -> nat) (h : nat -> Z) :
  zsum (map f l) h = zsum l (fun c => h (f c)).
Proof. induction l as [| c l IH]; cbn; [reflexivity | rewrite IH; reflexivity]. Qed.

Lemma zsum_seq_shift (s k : nat) (h : nat -> Z) :
  zsum (seq (S s) k) h = zsum (seq s k) (fun p => h (S p)).
Proof. rewrite <- seq_shift, zsum_map; reflexivity. Qed.

Lemma zsum_indicator (x s k : nat) (v : Z) :
  zsum (seq s k) (fun c => if Nat.eqb x c then v else 0)
  = if (s <=? x)%nat && (x <? s + k)%nat then v else 0.
Proof.
  revert s; induction k as [| k IH]; intros s; cbn [seq zsum].
  - destruct (Nat.leb_spec s x), (Nat.ltb_spec x (s + 0)); cbn; try reflexivity; lia.
  - rewrite IH.
    destruct (Nat.eqb_spec x s), (Nat.leb_spec s x), (Nat.ltb_spec x (s + S k)),
      (Nat.leb_spec (S s) x), (Nat.ltb_spec x (S s + k)); cbn; try ring; lia.
Qed.

Lemma and_count_map (f g : nat -> bool) (l : list nat) :
  and_count (map f l) (map g l) = zsum l (fun c => if f c && g c then 1 else 0).
Proof. induction l as [| c l IH]; cbn; [reflexivity | rewrite IH; reflexivity]. Qed.

Lemma last_index_some (l : list nat) (c p : nat) :
  last_index l c = Some p -> In c l /\ (p < List.length l)%nat /\ nth p l 0%nat = c.
Proof.
  revert p; induction l as [| a l IH]; intros p; cbn [last_index]; [discriminate |].
  destruct (last_index l c) as [p' |] eqn:E.
  - intros H; injection H as <-; destruct (IH p' eq_refl) as (H1 & H2 & H3).
    cbn; split; [auto | split; [lia | assumption]].
  - destruct (Nat.eqb_spec a c) as [<- |]; [| discriminate].
    intros H; injection H as <-; cbn; split; [auto | split; [lia | reflexivity]].
Qed.

Lemma last_index_none (l : list nat) (c : nat) : last_index l c = None -> ~ In c l.
Proof.
  induction l as [| a l IH]; cbn [last_index In]; [auto |].
  destruct (last_index l c); [discriminate |].
  destruct (Nat.eqb_spec a c); [discriminate |].
  intros _ [H | H]; [congruence | apply IH; auto].
Qed.

Lemma last_index_in (l : list nat) (c : nat) : In c l -> exists p, last_index l c = Some p.
Proof.
  intros H; destruct (last_index l c) as [p |] eqn:E; [eauto |].
  exfalso; apply (last_index_none l c E H).
Qed.

Lemma last_index_sum (axes : list nat) (F : nat -> Z) (c : nat) :
  NoDup axes ->
  match last_index axes c with Some p => F p | None => 0 end
  = zsum (seq 0 (List.length axes)) (fun p => if Nat.eqb (nth p axes 0%nat) c then F p else 0).
Proof.
  revert F; induction axes as [| a l IH]; intros F Hnd; [reflexivity |].
  apply NoDup_cons_iff in Hnd as [Ha Hl].
  cbn [List.length seq zsum last_index]; rewrite zsum_seq_shift; cbn [nth].
  rewrite <- (IH (fun p => F (S p)) Hl).
  destruct (last_index l c) as [p |] eqn:E.
  - destruct (last_index_some l c p E) as (Hc & _).
    destruct (Nat.eqb_spec a c) as [<- |]; [contradiction | ring].
  - destruct (Nat.eqb_spec a c); cbn; ring.
Qed.

Lemma seq_last_index (s k c : nat) :
  last_index (seq s k) c = if (s <=? c)%nat && (c <? s + k)%nat then Some (c - s)%nat else None.
Proof.
  revert s; induction k as [| k IH]; intros s; cbn [seq last_index].
  - destruct (Nat.leb_spec s c), (Nat.ltb_spec c (s + 0)); cbn; try reflexivity; lia.
  - rewrite IH.
    destruct (Nat.eqb_spec s c), (Nat.leb_spec s c), (Nat.ltb_spec c (s + S k)),
      (Nat.leb_spec (S s) c), (Nat.ltb_spec c (S s + k)); cbn;
      try reflexivity; try (f_equal; lia); lia.
Qed.

Lemma map_add_seq (m s k : nat) : map (fun a => (m + a)%nat) (seq s k) = seq (m + s) k.
Proof.
  revert s; induction k as [| k IH]; intros s; cbn; [reflexivity |].
  rewrite IH; f_equal; f_equal; lia.
Qed.

Lemma full_v_index (m : nat) :
  seq 0 m ++ map (fun a => (m + a)%nat) (seq 0 m) = seq 0 (2 * m)%nat.
Proof.
  rewrite map_add_seq, Nat.add_0_r.
  replace (2 * m)%nat with (m + m)%nat by lia; rewrite seq_app; reflexivity.
Qed.

Lemma embed_bits_length (m : nat) (axes : list nat) (b : list bool) :
  List.length (embed_bits m axes b) = m.
Proof. unfold embed_bits; rewrite length_map, length_seq; reflexivity. Qed.

Lemma embed_bits_full (m : nat) (b : list bool) :
  List.length b = m -> embed_bits m (seq 0 m) b = b.
Proof.
  intros Hb; unfold embed_bits.
  transitivity (map (fun c => nth c b false) (seq 0 (List.length b))); [| apply map_nth_seq].
  rewrite Hb; apply map_ext_in; intros c Hc; apply in_seq in Hc.
  rewrite seq_last_index.
  destruct (Nat.leb_spec 0 c), (Nat.ltb_spec c (0 + m)); try lia; cbn.
  rewrite Nat.sub_0_r; reflexivity.
Qed.

Lemma and_count_embed (m : nat) (axes : list nat) (b b' : list bool) :
  NoDup axes -> Forall (fun a => (a < m)%nat) axes ->
  List.length b = List.length axes -> List.length b' = List.length axes ->
  and_count (embed_bits m axes b) (embed_bits m axes b') = and_count b b'.
Proof.
  intros Hnd Hlt Hb Hb'.
  transitivity (zsum (seq 0 (List.length axes))
                  (fun p => if nth p b false && nth p b' false then 1 else 0)).
  - unfold embed_bits; rewrite and_count_map.
    rewrite (zsum_ext _ _ (fun c => zsum (seq 0 (List.length axes))
       (fun p => if Nat.eqb (nth p axes 0%nat) c
                 then (if nth p b false && nth p b' false then 1 else 0) else 0))).
    + rewrite zsum_swap; apply zsum_ext; intros p Hp; apply in_seq in Hp.
      rewrite zsum_indicator.
      assert (Hpm : (nth p axes 0%nat < m)%nat)
        by (rewrite Forall_forall in Hlt; apply Hlt, nth_In; lia).
      destruct (Nat.leb_spec 0 (nth p axes 0%nat)), (Nat.ltb_spec (nth p axes 0%nat) (0 + m));
        cbn; try reflexivity; lia.
    + intros c _; rewrite <- (last_index_sum axes
        (fun p => if nth p b false && nth p b' false then 1 else 0) c Hnd).
      destruct (last_index axes c); reflexivity.
  - rewrite <- and_count_map.
    rewrite <- Hb at 1; rewrite map_nth_seq.
    rewrite <- Hb'; rewrite map_nth_seq; reflexivity.
Qed.




Lemma pad_tableau_padded (t : CliffordTableau) (m : nat) (axes : list nat) :
  List.length axes = n t -> (n t <= m)%nat -> pad_tableau t m axes = Ret (padded t m axes).
Proof.
  intros Hl Hm; unfold pad_tableau; rewrite Hl, Nat.eqb_refl; cbn [negb].
  destruct (Nat.ltb_spec m (n t)); [lia | reflexivity].
Qed.

Lemma symplectic_bits (a a' b b' : pauli_string) :
  xbits a = xbits a' -> zbits a = zbits a' -> xbits b = xbits b' -> zbits b = zbits b' ->
  symplectic a b = symplectic a' b'.
Proof. unfold symplectic; intros -> -> -> ->; reflexivity. Qed.

Lemma symplectic_comm (a b : pauli_string) : symplectic a b = symplectic b a.
Proof.
  unfold symplectic; rewrite (and_count_comm (xbits a)), (and_count_comm (zbits a)), Z.add_comm.
  reflexivity.
Qed.

Lemma gen_x_map (m j : nat) :
  xbits (generator m j) = map (fun c => (j <? m)%nat && Nat.eqb c j) (seq 0 m).
Proof.
  unfold generator; destruct (Nat.ltb j m); cbn [xbits andb]; [reflexivity | apply zeros_as_map].
Qed.

Lemma gen_z_map (m j : nat) :
  zbits (generator m j) = map (fun c => negb (j <? m)%nat && Nat.eqb c (j - m)) (seq 0 m).
Proof.
  unfold generator; destruct (Nat.ltb j m); cbn [zbits negb andb];
    [apply zeros_as_map | reflexivity].
Qed.

Lemma and_count_unit (m i j : nat) :
  (i < m)%nat -> and_count (unit_bits m i) (unit_bits m j) = if Nat.eqb i j then 1 else 0.
Proof.
  intros Hi; unfold unit_bits; rewrite and_count_map.
  rewrite (zsum_ext _ _ (fun c => if Nat.eqb i c then (if Nat.eqb i j then 1 else 0) else 0)).
  - rewrite zsum_indicator.
    destruct (Nat.leb_spec 0 i), (Nat.ltb_spec i (0 + m)); cbn; try reflexivity; lia.
  - intros c _; destruct (Nat.eqb_spec c i), (Nat.eqb_spec c j), (Nat.eqb_spec i j),
      (Nat.eqb_spec i c); cbn; try reflexivity; exfalso; lia.
Qed.

Lemma generator_symplectic (m i j : nat) :
  (i < 2 * m)%nat -> (j < 2 * m)%nat ->
  symplectic (generator m i) (generator m j)
  = if Nat.eqb (i + m) j || Nat.eqb (j + m) i then 1 else 0.
Proof.
  intros Hi Hj; unfold generator, symplectic.
  destruct (Nat.ltb_spec i m), (Nat.ltb_spec j m); cbn [xbits zbits];
    rewrite ?and_count_zeros_l, ?and_count_zeros_r, ?and_count_unit by lia;
    destruct (Nat.eqb_spec (i + m) j), (Nat.eqb_spec (j + m) i); cbn;
    try (destruct (Nat.eqb_spec i (j - m)%nat)); try (destruct (Nat.eqb_spec (i - m)%nat j));
    cbn; try reflexivity; exfalso; lia.
Qed.

Section Axes.
Variables (m k : nat) (axes : list nat).
Hypotheses (Hnd : NoDup axes) (Hlt : Forall (fun a => (a < m)%nat) axes)
  (Hk : List.length axes = k).

Lemma axes_lt (p : nat) : (p < k)%nat -> (nth p axes 0%nat < m)%nat.
Proof. intros Hp; rewrite Forall_forall in Hlt; apply Hlt, nth_In; lia. Qed.

Lemma v_length : List.length (v_index m axes) = (2 * k)%nat.
Proof. unfold v_index; rewrite length_app, length_map; lia. Qed.

Lemma nth_v_lo (p : nat) : (p < k)%nat -> nth p (v_index m axes) 0%nat = nth p axes 0%nat.
Proof. intros Hp; unfold v_index; apply app_nth1; lia. Qed.

Lemma nth_v_hi (p : nat) :
  (k <= p < 2 * k)%nat -> nth p (v_index m axes) 0%nat = (m + nth (p - k) axes 0%nat)%nat.
Proof.
  intros Hp; unfold v_index; rewrite app_nth2 by lia; rewrite Hk.
  rewrite (nth_indep _ 0%nat (m + 0)%nat) by (rewrite length_map; lia).
  apply (map_nth (fun a => (m + a)%nat)).
Qed.

Lemma v_lt (p : nat) : (p < 2 * k)%nat -> (nth p (v_index m axes) 0%nat < 2 * m)%nat.
Proof.
  intros Hp; destruct (Nat.lt_ge_cases p k).
  - rewrite nth_v_lo by assumption; pose proof (axes_lt p ltac:(lia)); lia.
  - rewrite nth_v_hi by lia; pose proof (axes_lt (p - k) ltac:(lia)); lia.
Qed.

Lemma v_pair (p q : nat) :
  (p < 2 * k)%nat -> (q < 2 * k)%nat ->
  Nat.eqb (nth p (v_index m axes) 0%nat + m) (nth q (v_index m axes) 0%nat) = Nat.eqb (p + k) q.
Proof.
  intros Hp Hq.
  destruct (Nat.lt_ge_cases p k), (Nat.lt_ge_cases q k);
    [rewrite (nth_v_lo p), (nth_v_lo q) by lia | rewrite (nth_v_lo p), (nth_v_hi q) by lia
    | rewrite (nth_v_hi p), (nth_v_lo q) by lia | rewrite (nth_v_hi p), (nth_v_hi q) by lia].
  - pose proof (axes_lt q ltac:(lia)); destruct (Nat.eqb_spec (nth p axes 0%nat + m) (nth q axes 0%nat)),
      (Nat.eqb_spec (p + k) q); try reflexivity; exfalso; lia.
  - pose proof (axes_lt p ltac:(lia)); pose proof (axes_lt (q - k) ltac:(lia)).
    destruct (Nat.eqb_spec (nth p axes 0%nat + m) (m + nth (q - k) axes 0%nat)) as [E |],
      (Nat.eqb_spec (p + k) q); try reflexivity; exfalso.
    + assert (p = q - k)%nat; [| lia].
      apply (proj1 (NoDup_nth axes 0%nat) Hnd); lia.
    + apply n0; subst q; replace (p + k - k)%nat with p by lia; lia.
  - pose proof (axes_lt (p - k) ltac:(lia)); pose proof (axes_lt q ltac:(lia)).
    destruct (Nat.eqb_spec (m + nth (p - k) axes 0%nat + m) (nth q axes 0%nat)),
      (Nat.eqb_spec (p + k) q); try reflexivity; exfalso; lia.
  - pose proof (axes_lt (p - k) ltac:(lia)); pose proof (axes_lt (q - k) ltac:(lia)).
    destruct (Nat.eqb_spec (m + nth (p - k) axes 0%nat + m) (m + nth (q - k) axes 0%nat)),
      (Nat.eqb_spec (p + k) q); try reflexivity; exfalso; lia.
Qed.

Lemma in_v (c : nat) :
  In c (v_index m axes) -> (In c axes /\ (c < m)%nat) \/ ((m <= c)%nat /\ In (c - m)%nat axes).
Proof.
  unfold v_index; rewrite in_app_iff, in_map_iff; rewrite Forall_forall in Hlt.
  intros [H | (a & <- & Ha)]; [left; auto | right].
  replace (m + a - m)%nat with a by lia; split; [lia | assumption].
Qed.

Lemma in_v_lo (c : nat) : In c axes -> In c (v_index m axes).
Proof. intros H; unfold v_index; apply in_or_app; left; assumption. Qed.

Lemma in_v_hi (a : nat) : In a axes -> In (m + a)%nat (v_index m axes).
Proof. intros H; unfold v_index; apply in_or_app; right; apply in_map; assumption. Qed.

Lemma embed_gen_zero (b : list bool) (j : nat) :
  ~ In j (v_index m axes) ->
  and_count (embed_bits m axes b) (zbits (generator m j)) = 0 /\
  and_count (embed_bits m axes b) (xbits (generator m j)) = 0.
Proof.
  intros Hj; split; [rewrite gen_z_map | rewrite gen_x_map]; unfold embed_bits;
    rewrite and_count_map; (transitivity (zsum (seq 0 m) (fun _ => 0)); [| apply zsum_zero]);
    apply zsum_ext; intros c _;
    destruct (last_index axes c) as [p |] eqn:E; try reflexivity;
    apply last_index_some in E as (Hin & _).
  - destruct (Nat.ltb_spec j m), (Nat.eqb_spec c (j - m)%nat); cbn [negb andb];
      rewrite ?andb_false_r; try reflexivity.
    exfalso; apply Hj; replace j with (m + c)%nat by lia; apply in_v_hi; assumption.
  - destruct (Nat.ltb_spec j m), (Nat.eqb_spec c j); cbn [andb];
      rewrite ?andb_false_r; try reflexivity.
    exfalso; apply Hj; subst c; apply in_v_lo; assumption.
Qed.

Lemma pad_row_some_none (t : CliffordTableau) (i j p : nat) :
  (i < 2 * m)%nat -> (j < 2 * m)%nat ->
  last_index (v_index m axes) i = Some p -> last_index (v_index m axes) j = None ->
  symplectic (pad_row t m axes i) (pad_row t m axes j) = 0 /\
  symplectic (generator m i) (generator m j) = 0.
Proof.
  intros Hi Hj Ei Ej; split.
  - unfold pad_row; rewrite Ei, Ej; unfold symplectic; cbn [xbits zbits].
    apply last_index_none in Ej.
    rewrite (proj1 (embed_gen_zero _ j Ej)), (proj2 (embed_gen_zero _ j Ej)); reflexivity.
  - rewrite generator_symplectic by assumption.
    apply last_index_some in Ei as (Hin & _); apply last_index_none in Ej.
    destruct (in_v i Hin) as [[Ha Him] | [Him Ha]];
      destruct (Nat.eqb_spec (i + m) j), (Nat.eqb_spec (j + m) i); cbn; try reflexivity;
      exfalso; try lia.
    + apply Ej; replace j with (m + i)%nat by lia; apply in_v_hi; assumption.
    + apply Ej; replace j with (i - m)%nat by lia; apply in_v_lo; assumption.
Qed.

Lemma pad_row_symplectic (t : CliffordTableau) (i j : nat) :
  wf_tableau k t -> validate t = true -> (i < 2 * m)%nat -> (j < 2 * m)%nat ->
  symplectic (pad_row t m axes i) (pad_row t m axes j)
  = symplectic (generator m i) (generator m j).
Proof.
  intros Ht Hv Hi Hj; pose proof Ht as (Hn & _).
  destruct (last_index (v_index m axes) i) as [p |] eqn:Ei,
    (last_index (v_index m axes) j) as [q |] eqn:Ej.
  - unfold pad_row; rewrite Ei, Ej; unfold symplectic at 1; cbn [xbits zbits].
    pose proof (row_ok k t p Ht) as (Hxp & Hzp & _).
    pose proof (row_ok k t q Ht) as (Hxq & Hzq & _).
    rewrite !and_count_embed by (try assumption; lia).
    change ((and_count (xbits (row t p)) (zbits (row t q))
             + and_count (zbits (row t p)) (xbits (row t q))) mod 2)
      with (symplectic (row t p) (row t q)).
    apply last_index_some in Ei as (_ & Hp & <-); apply last_index_some in Ej as (_ & Hq & <-).
    rewrite v_length in Hp, Hq.
    rewrite validate_spec by (try rewrite Hn; assumption).
    rewrite Hn, !generator_symplectic by (first [assumption | apply v_lt; assumption]).
    rewrite !v_pair by assumption; reflexivity.
  - destruct (pad_row_some_none t i j p) as [-> ->]; auto.
  - rewrite symplectic_comm, (symplectic_comm (generator m i)).
    destruct (pad_row_some_none t j i q) as [-> ->]; auto.
  - unfold pad_row; rewrite Ei, Ej; reflexivity.
Qed.

Lemma nth_identity_xs (i : nat) :
  (i < 2 * m)%nat -> nth i (xs (identity_tableau m)) [] = xbits (generator m i).
Proof.
  intros Hi; unfold identity_tableau, tableau_of_rows; cbn [xs].
  rewrite map_map, nth_map_seq by assumption; reflexivity.
Qed.

Lemma nth_identity_zs (i : nat) :
  (i < 2 * m)%nat -> nth i (zs (identity_tableau m)) [] = zbits (generator m i).
Proof.
  intros Hi; unfold identity_tableau, tableau_of_rows; cbn [zs].
  rewrite map_map, nth_map_seq by assumption; reflexivity.
Qed.

Lemma row_padded_bits (t : CliffordTableau) (i : nat) :
  wf_tableau k t -> (i < 2 * m)%nat ->
  xbits (row (padded t m axes) i) = xbits (pad_row t m axes i) /\
  zbits (row (padded t m axes) i) = zbits (pad_row t m axes i).
Proof.
  intros (Hn & _ & Hxs & Hzs & _) Hi; unfold row, padded, pad_row; cbn [xbits zbits xs zs n].
  rewrite !nth_map_seq by assumption; fold (v_index m axes).
  destruct (last_index (v_index m axes) i) as [p |] eqn:E.
  - apply last_index_some in E as (_ & Hp & _); rewrite v_length in Hp.
    unfold row; cbn [xbits zbits]; rewrite Hn.
    rewrite (nth_indep (xs t) [] (zeros k)), (nth_indep (zs t) [] (zeros k)) by lia.
    split; reflexivity.
  - rewrite nth_identity_xs, nth_identity_zs by assumption; split; reflexivity.
Qed.

Lemma padded_wf (t : CliffordTableau) : wf_tableau m (padded t m axes).
Proof.
  unfold wf_tableau, padded; cbn [n rs xs zs]; rewrite !length_map, length_seq.
  repeat split; try reflexivity; apply Forall_forall; intros r Hr;
    apply in_map_iff in Hr as (i & <- & Hi); apply in_seq in Hi;
    destruct (last_index _ i); try apply embed_bits_length.
  - rewrite nth_identity_xs by lia; apply (proj1 (generator_ok m i)).
  - rewrite nth_identity_zs by lia; apply (proj1 (proj2 (generator_ok m i))).
Qed.

Lemma padded_validate (t : CliffordTableau) :
  wf_tableau k t -> validate t = true -> validate (padded t m axes) = true.
Proof.
  intros Ht Hv; apply validate_intro; intros i j Hi Hj.
  change (n (padded t m axes)) with m in *.
  destruct (row_padded_bits t i Ht Hi) as [Hxi Hzi].
  destruct (row_padded_bits t j Ht Hj) as [Hxj Hzj].
  rewrite (symplectic_bits _ (pad_row t m axes i) _ (pad_row t m axes j) Hxi Hzi Hxj Hzj).
  apply pad_row_symplectic; assumption.
Qed.

End Axes.

Lemma pad_tableau_full (m : nat) (t : CliffordTableau) :
  wf_tableau m t -> pad_tableau t m (seq 0 m) = Ret t.
Proof.
  intros Ht; pose proof Ht as (Hn & Hrs & Hxs & Hzs & Hfx & Hfz).
  rewrite pad_tableau_padded by (rewrite ?length_seq; lia); f_equal.
  destruct t as [k0 rs0 xs0 zs0]; cbn [n rs xs zs] in *; subst k0.
  unfold padded; cbn zeta; rewrite full_v_index; cbn [rs xs zs]; f_equal.
  - transitivity (map (fun i => nth i rs0 false) (seq 0 (List.length rs0)));
      [rewrite Hrs | apply map_nth_seq].
    apply map_ext_in; intros i Hi; apply in_seq in Hi; rewrite seq_last_index.
    destruct (Nat.leb_spec 0 i), (Nat.ltb_spec i (0 + 2 * m)); try lia; cbn.
    rewrite Nat.sub_0_r; reflexivity.
  - transitivity (map (fun i => nth i xs0 []) (seq 0 (List.length xs0)));
      [rewrite Hxs | apply map_nth_seq].
    apply map_ext_in; intros i Hi; apply in_seq in Hi; rewrite seq_last_index.
    destruct (Nat.leb_spec 0 i), (Nat.ltb_spec i (0 + 2 * m)); try lia; cbn.
    rewrite Nat.sub_0_r; apply embed_bits_full.
    rewrite Forall_forall in Hfx; apply Hfx, nth_In; lia.
  - transitivity (map (fun i => nth i zs0 []) (seq 0 (List.length zs0)));
      [rewrite Hzs | apply map_nth_seq].
    apply map_ext_in; intros i Hi; apply in_seq in Hi; rewrite seq_last_index.
    destruct (Nat.leb_spec 0 i), (Nat.ltb_spec i (0 + 2 * m)); try lia; cbn.
    rewrite Nat.sub_0_r; apply embed_bits_full.
    rewrite Forall_forall in Hfz; apply Hfz, nth_In; lia.
Qed.

Lemma find_index_some (l : list nat) (q a : nat) :
  find_index l q = Some a -> (a < List.length l)%nat /\ nth a l 0%nat = q.
Proof.
  revert a; induction l as [| b l IH]; intros a; cbn [find_index]; [discriminate |].
  destruct (Nat.eqb_spec b q) as [<- |].
  - intros H; injection H as <-; cbn; split; [lia | reflexivity].
  - destruct (find_index l q) as [a' |] eqn:E; cbn [option_map]; [| discriminate].
    intros H; injection H as <-; destruct (IH a' eq_refl); cbn; split; [lia | assumption].
Qed.

Lemma find_index_in (l : list nat) (q : nat) : In q l -> exists a, find_index l q = Some a.
Proof.
  induction l as [| b l IH]; cbn [In find_index]; [contradiction |].
  destruct (Nat.eqb_spec b q); [eauto |].
  intros [H | H]; [contradiction | destruct (IH H) as (a & ->); cbn; eauto].
Qed.

Lemma find_index_nth (l : list nat) (p : nat) :
  NoDup l -> (p < List.length l)%nat -> find_index l (nth p l 0%nat) = Some p.
Proof.
  intros Hnd Hp; destruct (find_index_in l (nth p l 0%nat) (nth_In l 0%nat Hp)) as (a & E).
  rewrite E; destruct (find_index_some l _ a E) as (Ha & Hn); f_equal.
  apply (proj1 (NoDup_nth l 0%nat) Hnd); assumption.
Qed.


Lemma get_axes_map (args qs : list nat) :
  incl qs args -> get_axes args qs = Ret (map (axis_of args) qs).
Proof.
  induction qs as [| q qs IH]; intros H; cbn [get_axes map]; [reflexivity |].
  destruct (find_index_in args q (H q (or_introl eq_refl))) as (a & E).
  rewrite E, IH by (intros x Hx; apply H; right; assumption).
  cbv beta iota; do 2 f_equal; unfold axis_of; rewrite E; reflexivity.
Qed.

Lemma map_reindex {A B} (f : A -> B) (l : list A) (d : A) :
  map f l = map (fun p => f (nth p l d)) (seq 0 (List.length l)).
Proof. rewrite <- (map_map (fun p => nth p l d) f), map_nth_seq; reflexivity. Qed.

Lemma get_axes_self (args : list nat) :
  NoDup args -> get_axes args args = Ret (seq 0 (List.length args)).
Proof.
  intros Hnd; rewrite get_axes_map by (intros x; auto); f_equal.
  rewrite (map_reindex _ args 0%nat).
  rewrite <- (map_id (seq 0 (List.length args))) at 2.
  apply map_ext_in; intros p Hp; apply in_seq in Hp.
  unfold axis_of; rewrite find_index_nth by (assumption || lia); reflexivity.
Qed.

Lemma NoDup_map_on {A B} (f : A -> B) (l : list A) :
  NoDup l -> (forall x y, In x l -> In y l -> f x = f y -> x = y) -> NoDup (map f l).
Proof.
  induction 1 as [| a l Ha Hl IH]; intros Hinj; cbn; constructor.
  - rewrite in_map_iff; intros (b & Hb & Hin).
    apply Ha; rewrite <- (Hinj b a) by (cbn; auto); assumption.
  - apply IH; intros x y Hx Hy; apply Hinj; cbn; auto.
Qed.

Lemma axis_of_spec (args : list nat) (q : nat) :
  In q args -> (axis_of args q < List.length args)%nat /\ nth (axis_of args q) args 0%nat = q.
Proof.
  intros H; destruct (find_index_in args q H) as (a & E); unfold axis_of; rewrite E.
  apply find_index_some; assumption.
Qed.

Lemma op_axes_ok (args qs : list nat) :
  NoDup qs -> incl qs args ->
  NoDup (map (axis_of args) qs) /\
  Forall (fun a => (a < List.length args)%nat) (map (axis_of args) qs).
Proof.
  intros Hnd Hinc; split.
  - apply NoDup_map_on; [assumption |]; intros x y Hx Hy Hxy.
    rewrite <- (proj2 (axis_of_spec args x (Hinc x Hx))),
            <- (proj2 (axis_of_spec args y (Hinc y Hy))), Hxy; reflexivity.
  - apply Forall_map, Forall_forall; intros x Hx; apply axis_of_spec, Hinc, Hx.
Qed.

Lemma nodup_bounded_length (l : list nat) (m : nat) :
  NoDup l -> Forall (fun a => (a < m)%nat) l -> (List.length l <= m)%nat.
Proof.
  intros Hnd Hlt; rewrite <- (length_seq m 0); apply NoDup_incl_length; [assumption |].
  intros x Hx; rewrite Forall_forall in Hlt; apply in_seq; specialize (Hlt x Hx); lia.
Qed.


Lemma act_on_operation_then (qs : list nat) (op : Operation) :
  NoDup qs -> clifford_op_on qs op ->
  exists P, wf_tableau (List.length qs) P /\ validate P = true /\
    forall S, wf_tableau (List.length qs) S ->
      act_on_operation (mk_tableau_args S qs) op
      = Ret (mk_tableau_args (tableau_then S P) qs).
Proof.
  intros Hq (g & Hg & Hwf & Hv & Hnd & Hinc).
  destruct (op_axes_ok qs (op_qubits op) Hnd Hinc) as [Hand Halt].
  assert (Hlen : List.length (map (axis_of qs) (op_qubits op)) = List.length (op_qubits op))
    by apply length_map.
  exists (padded g (List.length qs) (map (axis_of qs) (op_qubits op))).
  split; [apply (padded_wf _ _ _ Hlen) |]; split.
  - apply (padded_validate _ _ _ Hand Halt Hlen); assumption.
  - intros S HS; unfold act_on_operation, act_on_clifford; rewrite Hg; cbn [qubits tableau].
    rewrite get_axes_map by assumption.
    pose proof Hwf as (Hn & _).
    rewrite pad_tableau_padded; [reflexivity | congruence |].
    rewrite Hn, <- Hlen; apply nodup_bounded_length; assumption.
Qed.

Lemma act_on_operations_then (qs : list nat) (ops : list Operation) :
  NoDup qs -> Forall (clifford_op_on qs) ops ->
  exists T, wf_tableau (List.length qs) T /\ validate T = true /\
    forall S, wf_tableau (List.length qs) S ->
      act_on_operations (mk_tableau_args S qs) ops
      = Ret (mk_tableau_args (tableau_then S T) qs).
Proof.
  intros Hq; induction 1 as [| op ops Hop Hops IH].
  - exists (identity_tableau (List.length qs)).
    split; [apply identity_tableau_wf |]; split; [apply identity_tableau_validate |].
    intros S HS; cbn; rewrite tableau_then_identity by assumption; reflexivity.
  - destruct (act_on_operation_then qs op Hq Hop) as (P & HPw & HPv & HP).
    destruct IH as (T & HTw & HTv & HT).
    exists (tableau_then P T).
    split; [apply tableau_then_wf; assumption |].
    split; [apply (tableau_then_validate (List.length qs)); assumption |].
    intros S HS; cbn [act_on_operations]; rewrite HP by assumption.
    rewrite HT by (apply tableau_then_wf; assumption).
    rewrite (tableau_then_assoc (List.length qs)) by assumption; reflexivity.
Qed.

(** C4: applying Clifford operations one by one to a tableau state gives the
    state that the single gate [from_op_list operations qubits] gives on the
    same initial state; [from_op_list] succeeds, and so do both simulations. *)
Theorem act_on_operations_from_op_list (qs : list nat) (S : CliffordTableau)
  (ops : list Operation)
  (Hq : NoDup qs) (HS : wf_tableau (List.length qs) S)
  (Hops : Forall (clifford_op_on qs) ops) :
  exists G args',
    from_op_list ops qs = Ret G /\
    act_on_operations (mk_tableau_args S qs) ops = Ret args' /\
    act_on_clifford (gate_tableau G) (mk_tableau_args S qs) qs = Ret args'.
Proof.
  set (m := List.length qs).
  destruct (act_on_operations_then qs ops Hq Hops) as (T & HTw & HTv & HT).
  pose proof (identity_tableau_wf m) as HIw; pose proof (identity_tableau_validate m) as HIv.
  exists (mk_clifford_gate (tableau_then (identity_tableau m) T)).
  exists (mk_tableau_args (tableau_then S T) qs).
  split; [| split].
  - unfold from_op_list.
    replace (forallb has_stabilizer_effect ops) with true.
    + rewrite HT by assumption; cbn [tableau].
      unfold clifford_gate_from_clifford_tableau.
      rewrite (tableau_then_validate m) by assumption; reflexivity.
    + symmetry; apply forallb_forall; intros op Hop; rewrite Forall_forall in Hops.
      destruct (Hops op Hop) as (g & Hg & _); unfold has_stabilizer_effect; rewrite Hg;
        reflexivity.
  - apply HT, HS.
  - unfold act_on_clifford; cbn [qubits gate_tableau tableau].
    rewrite get_axes_self by assumption.
    rewrite pad_tableau_full by (apply tableau_then_wf; assumption).
    rewrite <- (tableau_then_assoc m) by assumption.
    rewrite tableau_then_identity by assumption; reflexivity.
Qed.




Lemma act_on_operations_from_op_list_witness :
  NoDup [5%nat; 7%nat] /\ wf_tableau 2 (identity_tableau 2) /\
  Forall (clifford_op_on [5%nat; 7%nat]) cnot_ops /\
  exists G args',
    from_op_list cnot_ops [5%nat; 7%nat] = Ret G /\
    act_on_operations (mk_tableau_args (identity_tableau 2) [5%nat; 7%nat]) cnot_ops = Ret args' /\
    act_on_clifford (gate_tableau G) (mk_tableau_args (identity_tableau 2) [5%nat; 7%nat])
      [5%nat; 7%nat] = Ret args'.
Proof.
  assert (Hq : NoDup [5%nat; 7%nat])
    by (repeat constructor; cbn; lia).
  assert (HS : wf_tableau 2 (identity_tableau 2))
    by (unfold wf_tableau; vm_compute; repeat split; repeat constructor).
  assert (Hops : Forall (clifford_op_on [5%nat; 7%nat]) cnot_ops).
  { unfold cnot_ops; repeat constructor; eexists; (split; [reflexivity |]);
      (split; [unfold wf_tableau; vm_compute; repeat split; repeat constructor |]);
      (split; [vm_compute; reflexivity |]);
      (split; [repeat constructor; cbn; lia | intros x Hx; cbn in *; lia]). }
  split; [exact Hq | split; [exact HS | split; [exact Hops |]]].
  exact (act_on_operations_from_op_list [5%nat; 7%nat] (identity_tableau 2) cnot_ops Hq HS Hops).
Defined.

Lemma from_xz_map_round_trip_witness :
  to (mk_pt PZ false) <> to (mk_pt PX false) /\
  exists g ty,
    from_xz_map (mk_pt PZ false) (mk_pt PX false) = Ret g /\
    transform g PX = Some (mk_pt PZ false) /\ transform g PZ = Some (mk_pt PX false) /\
    transform g PY = Some ty /\
    to (mk_pt PZ false) <> to ty /\ to ty <> to (mk_pt PX false) /\
    to (mk_pt PX false) <> to (mk_pt PZ false) /\
    right_handed (mk_pt PZ false) ty (mk_pt PX false) = true.
Proof.
  assert (Hd : to (mk_pt PZ false) <> to (mk_pt PX false)) by discriminate.
  split; [exact Hd |].
  exact (from_xz_map_round_trip (mk_pt PZ false) (mk_pt PX false) Hd).
Defined.

End Clifford.
